(** * cluster-shared-memory: the coordinator (Manager) and the worker proxy

    A shallow embedding of the master-side [Manager] class and of the
    worker-side [Worker] class, followed by the properties of the store, of
    the per-key lock with its waiter queue, of change notification and of
    the request dispatch.

    Modelling conventions.
    - A JavaScript value is a [value].  Numbers are the safe integers,
      objects are opaque references, and the members of [Object.prototype]
      are values of their own, since the tables of the coordinator hand
      them out.  A value that travels in a request is data, never a
      function.
    - The tables [memory], [locks], [lockRequestQueues] and [listeners]
      are plain objects: a finite map holds their own properties, indexed
      by the property name of the key ([to_string]), and a name that is
      not an own property is looked up in [Object.prototype].
    - A function handed to the Manager by master-side code is a [callback]
      handle.  Calling it is recorded in the [trace]; it is assumed to
      return normally and not to call back into the Manager.
    - A computation returns, throws, or is marked as not determined by the
      model ([Unmodelled]).
    - A promise is represented by what it settles to: [Resolved v],
      [Rejected e], or [Pending] when nothing will ever settle it.
      Executors of [new Promise] run at once, so every Manager method is a
      state transformer that also returns the promise.  What the runtime
      does with a rejection that nobody handles is not modelled.
    - The packages [uuid] and [lru-cache], the string conversion of
      objects and the status of the cluster workers are external; they are
      the fields of [Host] and the [cluster] component of the state. *)

From stdpp Require Import base strings gmap list pretty.

Local Open Scope Z_scope.
Local Open Scope string_scope.
Local Open Scope list_scope.

(** ** JavaScript values *)

(** The numbers of the model are the safe integers
    ([Number.isSafeInteger]): they are exact, and their string form is the
    plain decimal one. *)
Definition safe_integer (n : Z) : Prop := - 2 ^ 53 < n < 2 ^ 53.

Global Instance safe_integer_dec n : Decision (safe_integer n).
Proof. unfold safe_integer. apply _. Defined.

Definition number : Type := dsig safe_integer.

(** [num n I] is the number [n]; [I] is accepted when [n] is safe. *)
Definition num (n : Z) (safe : bool_decide (safe_integer n)) : number :=
  n ↾ safe.

(** The members that every plain object inherits from [Object.prototype]:
    eleven functions and the accessor [__proto__]. *)
Inductive builtin : Type :=
| Constructor
| DefineGetter
| DefineSetter
| HasOwnProperty
| LookupGetter
| LookupSetter
| IsPrototypeOf
| PropertyIsEnumerable
| ToString
| ValueOf
| Proto
| ToLocaleString.

Global Instance builtin_eq_dec : EqDecision builtin.
Proof. solve_decision. Defined.

Definition object_prototype : list (string * builtin) :=
  [ ("constructor", Constructor); ("__defineGetter__", DefineGetter);
    ("__defineSetter__", DefineSetter); ("hasOwnProperty", HasOwnProperty);
    ("__lookupGetter__", LookupGetter); ("__lookupSetter__", LookupSetter);
    ("isPrototypeOf", IsPrototypeOf);
    ("propertyIsEnumerable", PropertyIsEnumerable);
    ("toString", ToString); ("valueOf", ValueOf); ("__proto__", Proto);
    ("toLocaleString", ToLocaleString) ].

Fixpoint find_name {A} (name : string) (table : list (string * A))
    : option A :=
  match table with
  | [] => None
  | (n, a) :: rest => if decide (n = name) then Some a else find_name name rest
  end.

(** The member of [Object.prototype] called [p], if there is one. *)
Definition inherited_member (p : string) : option builtin :=
  find_name p object_prototype.

(** The [length] of what a plain object inherits under the name: the
    number of parameters of the function; [Object.prototype] itself, which
    is what [__proto__] reads as, has no [length]. *)
Definition builtin_length (m : builtin) : option nat :=
  match m with
  | Proto => None
  | ToString | ValueOf | ToLocaleString => Some 0%nat
  | DefineGetter | DefineSetter => Some 2%nat
  | Constructor | HasOwnProperty | LookupGetter | LookupSetter
  | IsPrototypeOf | PropertyIsEnumerable => Some 1%nat
  end.

(** The name of the function: [constructor] is the function [Object]. *)
Definition builtin_name (m : builtin) : string :=
  match m with
  | Constructor => "Object"
  | DefineGetter => "__defineGetter__"
  | DefineSetter => "__defineSetter__"
  | HasOwnProperty => "hasOwnProperty"
  | LookupGetter => "__lookupGetter__"
  | LookupSetter => "__lookupSetter__"
  | IsPrototypeOf => "isPrototypeOf"
  | PropertyIsEnumerable => "propertyIsEnumerable"
  | ToString => "toString"
  | ValueOf => "valueOf"
  | Proto => "__proto__"
  | ToLocaleString => "toLocaleString"
  end.

Inductive value : Type :=
| VUndefined
| VNull
| VBool (b : bool)
| VNum (n : number)
| VStr (s : string)
| VObj (ref : nat)
| VBuiltin (m : builtin).

Global Instance value_eq_dec : EqDecision value.
Proof. solve_decision. Defined.

(** [if (v)], [v ? a : b], [!v]. *)
Definition truthy (v : value) : bool :=
  match v with
  | VUndefined | VNull => false
  | VBool b => b
  | VNum n => bool_decide (`n ≠ 0)
  | VStr s => bool_decide (s ≠ "")
  | VObj _ | VBuiltin _ => true
  end.

(** [a === b]. *)
Definition strict_eq (a b : value) : bool := bool_decide (a = b).

(** What a plain object without own property [p] gives for [obj[p]]. *)
Definition inherited (p : string) : value :=
  from_option VBuiltin VUndefined (inherited_member p).

(** The setter of [__proto__] acts on objects and on [null] only. *)
Definition is_object_or_null (v : value) : bool :=
  match v with
  | VNull | VObj _ | VBuiltin _ => true
  | _ => false
  end.

(** A function value supplied by master-side code. *)
Abbreviation callback := nat (only parsing).

(** What is thrown: the [TypeError] of the runtime, the [Error] that
    [listen] creates, or any value thrown by code outside. *)
Inductive exception : Type :=
| TypeError
| Error (msg : string)
| Thrown (v : value).

Global Instance exception_eq_dec : EqDecision exception.
Proof. solve_decision. Defined.

(** What a returned promise settles to. *)
Inductive promise : Type :=
| Resolved (v : value)
| Rejected (reason : exception)
| Pending.

Global Instance promise_eq_dec : EqDecision promise.
Proof. solve_decision. Defined.

(** How a call ends.  [Unmodelled] marks a call whose behaviour this model
    does not determine. *)
Inductive outcome (A : Type) : Type :=
| Return (a : A)
| Throw (e : exception)
| Unmodelled.

Arguments Return {A} a.
Arguments Throw {A} e.
Arguments Unmodelled {A}.

(** ** Messages between worker and coordinator *)

(** A request, as built by [Worker.handle]; [r_id] is the id of the
    worker in the cluster. *)
Record request : Type := Request {
  r_id : nat;
  r_method : string;
  r_uuid : value;
  r_key : value;
  r_value : value
}.

(** A reply ([isNotified = false]) or a push notification
    ([isNotified = true]). *)
Record message : Type := Message {
  isNotified : bool;
  m_id : nat;
  m_uuid : value;
  m_value : value
}.

Global Instance message_eq_dec : EqDecision message.
Proof. solve_decision. Defined.

(** ** Subscribers *)

(** A listener is either a function passed to [Manager.listen] by
    master-side code, or the closure that [Manager.handle] builds for a
    worker's [listen] request.  Each such closure is a fresh function
    object; [ref] is its identity, the other fields are what it captures
    ([target], [data.id], [data.uuid], [data.key]). *)
Inductive listener : Type :=
| Local (cb : callback)
| Remote (ref : nat) (target : nat) (id : nat) (uuid key : value).

Global Instance listener_eq_dec : EqDecision listener.
Proof. solve_decision. Defined.

(** ** Observable effects *)

Inductive event : Type :=
| Called (cb : callback) (arg : value)
    (* [cb(arg)] at the end of a callback-style operation *)
| Queued (k : string) (cb : callback)
    (* [lockRequestQueues[k].push(cb)] in getLock *)
| Granted (k : string) (cb : callback) (lockId : string)
    (* [callback(lockId)] in handleLockRequest *)
| Unlocked (k : string) (lockId : value)
    (* [delete locks[k]] in releaseLock *)
| Notified (l : listener) (v : value)
    (* [cb(get(k))] in notifyListener *)
| Sent (target : nat) (m : message)
    (* [target.send(msg, ...)] on an open channel *)
| Logged (target : nat) (m : message).
    (* [this.logger(error)] after a failed send *)

Global Instance event_eq_dec : EqDecision event.
Proof. solve_decision. Defined.

(** ** The host: what comes from outside *)

Record LRUOptions : Type := { max : Z; maxAge : Z }.

Class Host : Type := {
  (** [uuid4 n] is the result of call number [n] of [uuid.v4()]. *)
  uuid4 : nat → string;
  (** [String(o)] for the object [o]; the conversion is assumed to return,
      and to do nothing else. *)
  object_key : nat → string;
  (** The [lru-cache] package.  The cache objects of some releases have
      no method [del]. *)
  LRUCache : Type;
  lru_new : LRUOptions → LRUCache;
  lru_get : value → LRUCache → value * LRUCache;
  lru_set : value → value → LRUCache → LRUCache;
  lru_del : option (value → LRUCache → LRUCache)
}.

Record WorkerStatus : Type := { isConnected : bool; isDead : bool }.

(** ** Property names *)

Section conversion.
Context `{Host}.

(** [String(v)]; also the property name used by [obj[v]]. *)
Definition to_string (v : value) : string :=
  match v with
  | VUndefined => "undefined"
  | VNull => "null"
  | VBool true => "true"
  | VBool false => "false"
  | VNum n => pretty (`n)
  | VStr s => s
  | VObj o => object_key o
  | VBuiltin Proto => "[object Object]"
  | VBuiltin m => "function " +:+ builtin_name m +:+ "() { [native code] }"
  end.

End conversion.

(** ** Plain objects that hold arrays *)

(** [lockRequestQueues] and [listeners] are plain objects whose own
    properties are arrays.  What such a table gives for a name is an array
    or, for a name that is no own property, the member of
    [Object.prototype] of that name. *)
Inductive slot (A : Type) : Type :=
| Items (xs : list A)
| Member (m : builtin).

Arguments Items {A} xs.
Arguments Member {A} m.

(** [table[p]]; [None] is [undefined]. *)
Definition property {A} (table : gmap string (list A)) (p : string)
    : option (slot A) :=
  match table !! p with
  | Some xs => Some (Items xs)
  | None => Member <$> inherited_member p
  end.

(** [table[p] = table[p] ?? []].  For an inherited name the right-hand
    side is the inherited member, which the statement stores under the
    same name (for [__proto__]: sets as the prototype, which it already
    is); every later read of the name gives the same member as before, and
    nothing deletes or enumerates the properties of these tables, so the
    map of own arrays stays as it is. *)
Definition ensure {A} (p : string) (table : gmap string (list A))
    : gmap string (list A) :=
  match property table p with
  | Some (Items xs) => <[p := xs]> table
  | Some (Member _) => table
  | None => <[p := []]> table
  end.

(** [table[p].push(x)]; [None] when [table[p]] has no method [push]. *)
Definition push {A} (p : string) (x : A) (table : gmap string (list A))
    : option (gmap string (list A)) :=
  match property table p with
  | Some (Items xs) => Some (<[p := xs ++ [x]]> table)
  | _ => None
  end.

(** ** The coordinator *)

Module Manager.

(** The state after a computation, and how it ended. *)
Abbreviation exec c st := (snd (c st)).
Abbreviation result c st := (fst (c st)).

Section definitions.
Context `{Host}.

(** The first four fields are the own properties of the tables of
    [__sharedMemory__]; [minted] counts the calls of [uuid4()],
    [allocated] the listener closures created so far; [trace] lists the
    effects, newest first. *)
Record state : Type := State {
  memory : gmap string value;
  locks : gmap string string;
  lockRequestQueues : gmap string (list callback);
  listeners : gmap string (list listener);
  sharedLRUMemory : LRUCache;
  minted : nat;
  allocated : nat;
  cluster : gmap nat WorkerStatus;
  trace : list event
}.

Definition defaultLRUOptions : LRUOptions :=
  {| max := 10000; maxAge := 5 * 60 * 1000 |}.

(** [new Manager()]. *)
Definition init : state :=
  State ∅ ∅ ∅ ∅ (lru_new defaultLRUOptions) 0 0 ∅ [].

Definition with_memory (f : gmap string value → gmap string value)
    (st : state) : state :=
  State (f (memory st)) (locks st) (lockRequestQueues st) (listeners st)
    (sharedLRUMemory st) (minted st) (allocated st) (cluster st) (trace st).

Definition with_locks (f : gmap string string → gmap string string)
    (st : state) : state :=
  State (memory st) (f (locks st)) (lockRequestQueues st) (listeners st)
    (sharedLRUMemory st) (minted st) (allocated st) (cluster st) (trace st).

Definition with_queues
    (f : gmap string (list callback) → gmap string (list callback))
    (st : state) : state :=
  State (memory st) (locks st) (f (lockRequestQueues st)) (listeners st)
    (sharedLRUMemory st) (minted st) (allocated st) (cluster st) (trace st).

Definition with_listeners
    (f : gmap string (list listener) → gmap string (list listener))
    (st : state) : state :=
  State (memory st) (locks st) (lockRequestQueues st) (f (listeners st))
    (sharedLRUMemory st) (minted st) (allocated st) (cluster st) (trace st).

Definition with_lru (f : LRUCache → LRUCache) (st : state) : state :=
  State (memory st) (locks st) (lockRequestQueues st) (listeners st)
    (f (sharedLRUMemory st)) (minted st) (allocated st) (cluster st)
    (trace st).

Definition with_cluster (f : gmap nat WorkerStatus → gmap nat WorkerStatus)
    (st : state) : state :=
  State (memory st) (locks st) (lockRequestQueues st) (listeners st)
    (sharedLRUMemory st) (minted st) (allocated st) (f (cluster st))
    (trace st).

(** *** Computations over the coordinator state *)

Definition M (A : Type) : Type := state → outcome A * state.

Definition ret {A} (a : A) : M A := λ st, (Return a, st).

Definition throw {A} (e : exception) : M A := λ st, (Throw e, st).

Definition unmodelled {A} : M A := λ st, (Unmodelled, st).

(** Sequencing: what follows a call that throws is not run. *)
Definition bind {A B} (c : M A) (k : A → M B) : M B :=
  λ st,
    let r := c st in
    match r.1 with
    | Return a => k a r.2
    | Throw e => (Throw e, r.2)
    | Unmodelled => (Unmodelled, r.2)
    end.

Definition modify (f : state → state) : M unit := λ st, (Return tt, f st).

Definition emit (e : event) : M unit :=
  modify (λ st,
    State (memory st) (locks st) (lockRequestQueues st) (listeners st)
      (sharedLRUMemory st) (minted st) (allocated st) (cluster st)
      (e :: trace st)).

Local Notation "'let*' x ':=' c 'in' k" := (bind c (λ x, k))
  (at level 10, x name, c at level 100, k at level 200).
Local Notation "c1 '>>' c2" := (bind c1 (λ _, c2))
  (at level 100, c2 at level 200, right associativity).

(** [new Promise(resolve => { body })]: the executor runs at once; the
    promise is resolved with the value that the body passes to [resolve],
    stays pending when the body ends without calling [resolve], and is
    rejected with what the body throws. *)
Definition executor (body : M (option value)) : M promise :=
  λ st,
    let r := body st in
    match r.1 with
    | Return (Some v) => (Return (Resolved v), r.2)
    | Return None => (Return Pending, r.2)
    | Throw e => (Return (Rejected e), r.2)
    | Unmodelled => (Unmodelled, r.2)
    end.

(** [cb(arg)] for a callback supplied by master-side code. *)
Definition call (cb : callback) (arg : value) : M unit :=
  emit (Called cb arg).

(** [typeof cb === 'function'] then ... *)
Definition when_function (cb : option callback) (body : callback → M unit)
    : M unit :=
  match cb with
  | Some c => body c
  | None => ret tt
  end.

(** *** The primary store: [__sharedMemory__.set/get/clear/remove] *)

(** [this.memory[p]]. *)
Definition stored (st : state) (p : string) : value :=
  match memory st !! p with
  | Some v => v
  | None => inherited p
  end.

(** [this.memory[k] = v].  Under the name [__proto__], unless the store
    has an own property of that name, the assignment calls the setter
    inherited from [Object.prototype]: a value that is neither an object
    nor [null] is ignored; an object or [null] replaces the prototype of
    the store, and what the store inherits from then on is not
    modelled. *)
Definition sm_set (k v : value) : M unit :=
  λ st,
    let p := to_string k in
    if decide (p = "__proto__" ∧ memory st !! p = None) then
      if is_object_or_null v then unmodelled st else ret tt st
    else modify (with_memory (insert p v)) st.

Definition sm_get (k : value) : M value :=
  λ st, ret (stored st (to_string k)) st.

Definition sm_clear : M unit :=
  modify (with_memory (λ _, ∅)).

(** [delete this.memory[k]]: own properties only. *)
Definition sm_remove (k : value) : M unit :=
  modify (with_memory (delete (to_string k))).

(** *** Workers of the cluster *)

(** A worker that the [cluster] map does not list is online. *)
Definition status (st : state) (w : nat) : WorkerStatus :=
  default {| isConnected := true; isDead := false |} (cluster st !! w).

(** [target.send(msg, null, e => { if (e) this.logger(e) })]: on a closed
    channel the send fails and the error handler logs it. *)
Definition send (target : nat) (msg : message) : M unit :=
  λ st,
    if isConnected (status st target) then emit (Sent target msg) st
    else emit (Logged target msg) st.

(** *** Subscriptions *)

(** [indexOf] followed by [splice(index, 1)]: the first occurrence goes. *)
Fixpoint remove_first (l : listener) (ls : list listener) : list listener :=
  match ls with
  | [] => []
  | x :: xs => if decide (x = l) then xs else x :: remove_first l xs
  end.

(** [(listeners[k] ?? []).indexOf(listener)] throws when [listeners[k]] is
    an inherited member, which has no method [indexOf]. *)
Definition removeListener (k : value) (l : listener) : M unit :=
  λ st,
    match property (listeners st) (to_string k) with
    | Some (Items ls) =>
        modify (with_listeners (insert (to_string k) (remove_first l ls))) st
    | Some (Member _) => throw TypeError st
    | None => ret tt st
    end.

(** Running a listener on a value.  A local function is only recorded.  The
    closure built by [handle] sends a push notification when its worker is
    connected, and removes itself when the worker is dead. *)
Definition run_listener (l : listener) (v : value) : M unit :=
  emit (Notified l v) >>
  match l with
  | Local _ => ret tt
  | Remote _ target id uuid key =>
      λ st,
        if isConnected (status st target)
        then send target (Message true id uuid v) st
        else if isDead (status st target)
        then removeListener key l st
        else ret tt st
  end.

(** [listeners.map(cb => new Promise(resolve => { cb(get(k)); resolve() }))]:
    [map] fixes the number of iterations when it starts and, at each
    index, reads the array as it is then; an index that is no longer in
    the array is passed over.  Each listener runs in an executor, so what
    it throws goes no further. *)
Fixpoint notify_from (n i : nat) (k : value) : M unit :=
  match n with
  | O => ret tt
  | S n' =>
      λ st,
        let st' :=
          match default [] (listeners st !! to_string k) !! i with
          | Some l => exec (let* v := sm_get k in run_listener l v) st
          | None => st
          end in
        notify_from n' (S i) k st'
  end.

(** [listeners?.length > 0] holds for a non-empty array and for an
    inherited function with parameters; the latter has no method [map]. *)
Definition notifyListener (k : value) : M unit :=
  λ st,
    match property (listeners st) (to_string k) with
    | Some (Items ls) => notify_from (length ls) O k st
    | Some (Member m) =>
        match builtin_length m with
        | Some (S _) => throw TypeError st
        | _ => ret tt st
        end
    | None => ret tt st
    end.

Definition listen (k : value) (cb : option listener) : M unit :=
  match cb with
  | Some l =>
      modify (with_listeners (ensure (to_string k))) >>
      λ st,
        match push (to_string k) l (listeners st) with
        | Some table => modify (with_listeners (λ _, table)) st
        | None => throw TypeError st
        end
  | None => throw (Error "a listener must have a callback.")
  end.

(** *** Store operations *)

(** The result is [None] when the method returns [undefined] instead of a
    promise. *)
Definition set (k v : value) (cb : option callback) : M (option promise) :=
  if truthy k then
    when_function cb (λ c,
      sm_set k v >> notifyListener k >> call c (VStr "OK")) >>
    let* p :=
      executor (sm_set k v >> notifyListener k >> ret (Some (VStr "OK"))) in
    ret (Some p)
  else ret None.

Definition get (k : value) (cb : option callback) : M promise :=
  when_function cb (λ c, let* v := sm_get k in call c v) >>
  executor (let* v := sm_get k in ret (Some v)).

Definition remove (k : value) (cb : option callback) : M promise :=
  when_function cb (λ c,
    sm_remove k >> notifyListener k >> call c (VStr "OK")) >>
  executor (sm_remove k >> notifyListener k >> ret (Some (VStr "OK"))).

(** *** Locks *)

(** [locks[k]]. *)
Definition holder (st : state) (k : value) : value :=
  match locks st !! to_string k with
  | Some t => VStr t
  | None => inherited (to_string k)
  end.

(** [queues[k] = queues[k] ?? []]. *)
Definition ensure_queue (k : value) : M unit :=
  modify (with_queues (ensure (to_string k))).

(** [queues[k].push(cb)]. *)
Definition push_waiter (k : value) (cb : callback) : M unit :=
  λ st,
    match push (to_string k) cb (lockRequestQueues st) with
    | Some table =>
        (modify (with_queues (λ _, table)) >>
         emit (Queued (to_string k) cb)) st
    | None => throw TypeError st
    end.

(** The executor of [handleLockRequest].  When [locks[k]] is falsy and
    [queues[k]] is an inherited function with parameters, [shift] is
    missing and the promise is rejected; no caller looks at it. *)
Definition handleLockRequest (k : value) : M promise :=
  λ st,
    if truthy (holder st k) then (Return (Resolved VUndefined), st)
    else
      match property (lockRequestQueues st) (to_string k) with
      | Some (Items (callback :: rest)) =>
          let lockId := uuid4 (minted st) in
          let st1 := with_queues (insert (to_string k) rest) st in
          let st2 :=
            State (memory st1) (<[to_string k := lockId]> (locks st1))
              (lockRequestQueues st1) (listeners st1) (sharedLRUMemory st1)
              (S (minted st1)) (allocated st1) (cluster st1) (trace st1) in
          (Return (Resolved VUndefined),
           exec (emit (Granted (to_string k) callback lockId)) st2)
      | Some (Member m) =>
          match builtin_length m with
          | Some (S _) => (Return (Rejected TypeError), st)
          | _ => (Return (Resolved VUndefined), st)
          end
      | _ => (Return (Resolved VUndefined), st)
      end.

(** In the promise branch the source reads the property [pushresolve] of
    the queue, which neither an array nor an inherited member has: the
    statement evaluates to [undefined] and the resolver is stored nowhere,
    so the promise stays pending. *)
Definition getLock (k : value) (cb : option callback) : M promise :=
  when_function cb (λ c,
    ensure_queue k >> push_waiter k c >> handleLockRequest k >> ret tt) >>
  executor (ensure_queue k >> handleLockRequest k >> ret None).

Definition failed (lockId k : value) : string :=
  "Failed. LockId:" +:+ to_string lockId +:+ " does not match " +:+
  to_string k +:+ "'s lockId.".

(** [delete locks[k]]: own properties only. *)
Definition unlock (k lockId : value) : M unit :=
  modify (with_locks (delete (to_string k))) >>
  emit (Unlocked (to_string k) lockId).

(** The body shared by the two branches of [releaseLock]; the value is
    what the branch passes to [cb] or to [resolve]. *)
Definition release (k lockId : value) : M value :=
  λ st,
    if strict_eq lockId (holder st k) then
      (unlock k lockId >> handleLockRequest k >> ret (VStr "OK")) st
    else ret (VStr (failed lockId k)) st.

Definition releaseLock (k lockId : value) (cb : option callback)
    : M promise :=
  when_function cb (λ c, let* v := release k lockId in call c v) >>
  executor (let* v := release k lockId in ret (Some v)).

(** [await p]: the rest of an async function runs on the value of a
    fulfilled promise; a rejection ends the function with that reason; a
    promise that never settles suspends it for ever. *)
Definition await (p : promise) (rest : value → M promise) : M promise :=
  match p with
  | Resolved v => rest v
  | Rejected e => ret (Rejected e)
  | Pending => ret Pending
  end.

(** [mutex], cut at its three [await]s.  [f] is the action: it runs on the
    coordinator state and yields the promise it returns ([Rejected] also
    when it throws). *)
Definition mutex_released (result : value) (p : promise) : M promise :=
  await p (λ _, ret (Resolved result)).

Definition mutex_ran (k lockId : value) (p : promise) : M promise :=
  await p (λ result,
    let* r := releaseLock k lockId None in
    mutex_released result r).

Definition mutex_acquired (k : value) (f : M promise) (p : promise)
    : M promise :=
  await p (λ lockId,
    let* r := f in
    mutex_ran k lockId r).

Definition mutex (k : value) (f : M promise) : M promise :=
  let* p := getLock k None in
  mutex_acquired k f p.

(** *** The bounded cache *)

Definition setLRUOptions (omax omaxAge : option Z) : M unit :=
  modify (with_lru (λ _,
    lru_new {| max := default (max defaultLRUOptions) omax;
               maxAge := default (maxAge defaultLRUOptions) omaxAge |})).

Definition lru_read (k : value) : M value :=
  λ st,
    let r := lru_get k (sharedLRUMemory st) in
    (Return r.1, with_lru (λ _, r.2) st).

Definition getLRU (k : value) (cb : option callback) : M promise :=
  when_function cb (λ c, let* v := lru_read k in call c v) >>
  executor (let* v := lru_read k in ret (Some v)).

Definition setLRU (k v : value) (cb : option callback)
    : M (option promise) :=
  if truthy k then
    when_function cb (λ c,
      modify (with_lru (lru_set k v)) >> call c (VStr "OK")) >>
    let* p :=
      executor (modify (with_lru (lru_set k v)) >> ret (Some (VStr "OK"))) in
    ret (Some p)
  else ret None.

(** [this.__sharedLRUMemory__.del(k)]. *)
Definition lru_delete (k : value) : M unit :=
  match lru_del with
  | Some del => modify (with_lru (del k))
  | None => throw TypeError
  end.

Definition removeLRU (k : value) (cb : option callback) : M promise :=
  when_function cb (λ c, lru_delete k >> call c (VStr "OK")) >>
  executor (lru_delete k >> ret (Some (VStr "OK"))).

(** *** Dispatch of worker requests *)

(** The methods that [this[data.method]] can reach and that the model
    covers: the eight operations with a reply, and four helpers. *)
Inductive method : Type :=
| MSet | MGet | MRemove | MGetLock | MReleaseLock
| MGetLRU | MSetLRU | MRemoveLRU
| MMutex | MHandleLockRequest | MNotifyListener | MRemoveListener.

(** What the property [name] of a Manager is: a method of the model, some
    other member (own field, other method of the class, member inherited
    from [Object.prototype]), or nothing at all. *)
Inductive member : Type :=
| Callable (m : method)
| Other
| Absent.

Definition members : list (string * member) :=
  [ ("set", Callable MSet); ("get", Callable MGet);
    ("remove", Callable MRemove); ("getLock", Callable MGetLock);
    ("releaseLock", Callable MReleaseLock); ("getLRU", Callable MGetLRU);
    ("setLRU", Callable MSetLRU); ("removeLRU", Callable MRemoveLRU);
    ("mutex", Callable MMutex);
    ("handleLockRequest", Callable MHandleLockRequest);
    ("notifyListener", Callable MNotifyListener);
    ("removeListener", Callable MRemoveListener);
    ("listen", Other); ("handle", Other); ("setLRUOptions", Other);
    ("constructor", Other); ("logger", Other);
    ("__sharedMemory__", Other); ("__sharedLRUMemory__", Other);
    ("defaultLRUOptions", Other);
    ("__proto__", Other); ("hasOwnProperty", Other);
    ("isPrototypeOf", Other); ("propertyIsEnumerable", Other);
    ("toLocaleString", Other); ("toString", Other); ("valueOf", Other);
    ("__defineGetter__", Other); ("__defineSetter__", Other);
    ("__lookupGetter__", Other); ("__lookupSetter__", Other) ].

Fixpoint assoc (name : string) (table : list (string * member)) : member :=
  match table with
  | [] => Absent
  | (n, m) :: rest => if decide (n = name) then m else assoc name rest
  end.

Definition member_of (name : string) : member := assoc name members.

(** [this[m](...args)]; the result is [None] when the method returns
    [undefined] instead of a promise.  Arguments are data, so a parameter
    that expects a function never receives one, and no element of an
    array of listeners is equal to one. *)
Definition invoke (m : method) (args : list value) : M (option promise) :=
  let a0 := nth 0 args VUndefined in
  let a1 := nth 1 args VUndefined in
  match m with
  | MSet => set a0 a1 None
  | MGet => let* p := get a0 None in ret (Some p)
  | MRemove => let* p := remove a0 None in ret (Some p)
  | MGetLock => let* p := getLock a0 None in ret (Some p)
  | MReleaseLock => let* p := releaseLock a0 a1 None in ret (Some p)
  | MGetLRU => let* p := getLRU a0 None in ret (Some p)
  | MSetLRU => setLRU a0 a1 None
  | MRemoveLRU => let* p := removeLRU a0 None in ret (Some p)
  | MMutex =>
      let* p := mutex a0 (ret (Rejected TypeError)) in
      ret (Some p)
  | MHandleLockRequest => let* p := handleLockRequest a0 in ret (Some p)
  | MNotifyListener => notifyListener a0 >> ret None
  | MRemoveListener =>
      λ st,
        match property (listeners st) (to_string a0) with
        | Some (Member _) => throw TypeError st
        | _ => ret None st
        end
  end.

Definition reply (data : request) (target : nat) (v : value) : M unit :=
  send target (Message false (r_id data) (r_uuid data) v).

(** [handle(data, target)].  In the second branch [.then] is called on
    what the method returns: that throws when the method has returned
    [undefined]; the reply is sent when the promise is resolved, and
    nothing is done with a promise that is rejected or stays pending. *)
Definition handle (data : request) (target : nat) : M unit :=
  if decide (r_method data = "listen") then
    λ st,
      let l :=
        Remote (allocated st) target (r_id data) (r_uuid data)
          (r_key data) in
      listen (r_key data) (Some l)
        (State (memory st) (locks st) (lockRequestQueues st) (listeners st)
           (sharedLRUMemory st) (minted st) (S (allocated st)) (cluster st)
           (trace st))
  else
    let args :=
      if truthy (r_value data) then [r_key data; r_value data]
      else [r_key data] in
    match member_of (r_method data) with
    | Absent => throw TypeError
    | Other => unmodelled
    | Callable m =>
        let* r := invoke m args in
        match r with
        | None => throw TypeError
        | Some (Resolved v) => reply data target v
        | Some _ => ret tt
        end
    end.

(** The message loop set up by the constructor: requests are handled one
    at a time, in order of arrival ([target] is the sending worker).  No
    handler catches what [handle] throws, so an exception ends the
    process with the rest of the requests unserved. *)
Fixpoint serve (inbox : list (request * nat)) : M unit :=
  match inbox with
  | [] => ret tt
  | (data, target) :: rest => handle data target >> serve rest
  end.

(** A call made by master-side code that goes on after an exception. *)
Definition attempt {A} (c : M A) : M unit :=
  λ st,
    let r := c st in
    match r.1 with
    | Unmodelled => (Unmodelled, r.2)
    | _ => (Return tt, r.2)
    end.

End definitions.
End Manager.

(** ** The worker proxy *)

Module Worker.
Section definitions.
Context `{Host}.

(** [handle(method, k, v, cb)]: the request posted to the master by worker
    [wid]; [n] numbers the worker's calls of [uuid4()]. *)
Definition handle (wid n : nat) (method : string) (k v : value) : request :=
  Request wid method (VStr (uuid4 n)) k v.

(** The requests posted by one call of a proxy method: one for the
    callback, when there is one, and one for the returned promise. *)
Definition post (wid n : nat) (method : string) (k v : value)
    (cb : option callback) : list request :=
  match cb with
  | Some _ => [handle wid n method k v; handle wid (S n) method k v]
  | None => [handle wid n method k v]
  end.

Definition set (wid n : nat) (k v : value) (cb : option callback) :=
  post wid n "set" k v cb.
Definition get (wid n : nat) (k : value) (cb : option callback) :=
  post wid n "get" k VNull cb.
Definition remove (wid n : nat) (k : value) (cb : option callback) :=
  post wid n "remove" k VNull cb.
Definition getLock (wid n : nat) (k : value) (cb : option callback) :=
  post wid n "getLock" k VNull cb.
Definition releaseLock (wid n : nat) (k lockId : value)
    (cb : option callback) :=
  post wid n "releaseLock" k lockId cb.
Definition listen (wid n : nat) (k : value) : list request :=
  [handle wid n "listen" k VNull].
Definition getLRU (wid n : nat) (k : value) (cb : option callback) :=
  post wid n "getLRU" k VNull cb.
Definition setLRU (wid n : nat) (k v : value) (cb : option callback) :=
  post wid n "setLRU" k v cb.
Definition removeLRU (wid n : nat) (k : value) (cb : option callback) :=
  post wid n "removeLRU" k VNull cb.

End definitions.
End Worker.

(** ** A sample host *)

(** Tokens [lock-0], [lock-1], ...; every object is a plain one; the cache
    is an association list, the most recently used entry first, cut at
    [max] entries, and has no method [del]. *)
Definition sample_get (k : value) (c : list (value * value))
    : value * list (value * value) :=
  match list_find (λ e, e.1 = k) c with
  | Some (_, e) => (e.2, e :: filter (λ e', e'.1 ≠ k) c)
  | None => (VUndefined, c)
  end.

Definition sample_host : Host := {|
  uuid4 n := "lock-" +:+ pretty n;
  object_key _ := "[object Object]";
  LRUCache := Z * list (value * value);
  lru_new o := (max o, []);
  lru_get k c := let r := sample_get k c.2 in (r.1, (c.1, r.2));
  lru_set k v c :=
    (c.1, take (Z.to_nat c.1) ((k, v) :: filter (λ e, e.1 ≠ k) c.2));
  lru_del := None
|}.

(** ** Vocabulary of the properties *)

Section vocabulary.
Context `{Host}.
Import Manager.

(** A key whose property name is not the name of a member of
    [Object.prototype]. *)
Definition ordinary (k : value) : Prop :=
  inherited_member (to_string k) = None.

(** [st'] differs from [st] at most in subscriptions and trace. *)
Definition frame (st st' : state) : Prop :=
  memory st' = memory st ∧ locks st' = locks st ∧
  lockRequestQueues st' = lockRequestQueues st ∧
  sharedLRUMemory st' = sharedLRUMemory st ∧
  minted st' = minted st ∧ allocated st' = allocated st ∧
  cluster st' = cluster st.

(** The subscribers of a property name, in order of registration. *)
Definition subscribers (st : state) (p : string) : list listener :=
  default [] (listeners st !! p).

Definition occurrences (l : listener) (ls : list listener) : nat :=
  length (filter (λ x, x = l) ls).

(** A listener that would remove itself when run: the closure of a worker
    that is dead and not connected. *)
Definition prunable (st : state) (l : listener) : bool :=
  match l with
  | Local _ => false
  | Remote _ target _ _ _ =>
      negb (isConnected (status st target)) && isDead (status st target)
  end.

(** No subscription would be pruned. *)
Definition steady (st : state) : Prop :=
  ∀ p l, l ∈ subscribers st p → prunable st l = false.

Definition unregistered (l : listener) (st : state) : Prop :=
  ∀ p, l ∉ subscribers st p.

(** The values a listener has been called with, oldest first. *)
Definition notification (l : listener) (e : event) : option value :=
  match e with
  | Notified l' v => if decide (l' = l) then Some v else None
  | _ => None
  end.

Definition notified_in (l : listener) (tr : list event) : list value :=
  omap (notification l) (reverse tr).

Definition notified (l : listener) (st : state) : list value :=
  notified_in l (trace st).

(** Calls of the store's writing methods by master-side code, which goes
    on after a call that throws. *)
Inductive store_call : Type :=
| SetCall (k v : value) (cb : option callback)
| RemoveCall (k : value) (cb : option callback).

Definition perform (c : store_call) : M unit :=
  match c with
  | SetCall k v cb => attempt (set k v cb)
  | RemoveCall k cb => attempt (remove k cb)
  end.

Fixpoint perform_all (cs : list store_call) : M unit :=
  match cs with
  | [] => ret tt
  | c :: rest => bind (perform c) (λ _, perform_all rest)
  end.

(** How often an operation runs its body: once for the promise, and once
    more when a callback is given. *)
Definition runs (cb : option callback) : nat :=
  match cb with
  | Some _ => 2
  | None => 1
  end.

(** The values that a call writes under the ordinary property name [p],
    one for each run of the body; a removal writes [undefined]. *)
Definition written (p : string) (c : store_call) : list value :=
  match c with
  | SetCall k v cb =>
      if truthy k && bool_decide (to_string k = p)
      then replicate (runs cb) v else []
  | RemoveCall k cb =>
      if bool_decide (to_string k = p)
      then replicate (runs cb) VUndefined else []
  end.

Definition key_of (c : store_call) : value :=
  match c with
  | SetCall k _ _ | RemoveCall k _ => k
  end.

(** The values that a call on an ordinary key makes the coordinator pass
    to listener [l]. *)
Definition delivered (st : state) (l : listener) (c : store_call)
    : list value :=
  match c with
  | SetCall k v cb =>
      if truthy k
      then replicate
             (runs cb * occurrences l (subscribers st (to_string k))) v
      else []
  | RemoveCall k cb =>
      replicate (runs cb * occurrences l (subscribers st (to_string k)))
        VUndefined
  end.

(** A call that replaces the prototype of the store: an assignment of an
    object or of [null] under the name [__proto__]. *)
Definition replaces_prototype (c : store_call) : bool :=
  match c with
  | SetCall k v _ =>
      bool_decide (to_string k = "__proto__") && is_object_or_null v
  | RemoveCall _ _ => false
  end.

(** A computation that the model determines. *)
Definition modelled {A} (c : M A) : Prop :=
  ∀ st, result c st ≠ Unmodelled.

(** A property of states that every step of a computation keeps. *)
Definition preserves {A} (P : state → Prop) (c : M A) : Prop :=
  ∀ st, P st → P (exec c st).

(** *** Locks *)

(** The waiters of a property name, oldest first. *)
Definition waiting (st : state) (p : string) : list callback :=
  default [] (lockRequestQueues st !! p).

(** The recorded holder of a property name, as a list of tokens. *)
Definition holders (st : state) (p : string) : list string :=
  option_list (locks st !! p).

(** The tokens of [p] that are outstanding after the events of [tr]
    (newest first): handed to a waiter and not released since. *)
Fixpoint outstanding (p : string) (tr : list event) : list string :=
  match tr with
  | [] => []
  | Granted p' _ t :: tr' =>
      if decide (p' = p) then t :: outstanding p tr' else outstanding p tr'
  | Unlocked p' t :: tr' =>
      if decide (p' = p)
      then filter (λ x, VStr x ≠ t) (outstanding p tr')
      else outstanding p tr'
  | _ :: tr' => outstanding p tr'
  end.

(** At every moment of [tr] at most one token of [p] is outstanding, and a
    token of [p] is only handed out when none is. *)
Fixpoint exclusive (p : string) (tr : list event) : Prop :=
  match tr with
  | [] => True
  | e :: tr' =>
      exclusive p tr' ∧ (length (outstanding p (e :: tr')) ≤ 1)%nat ∧
      ∀ c t, e = Granted p c t → outstanding p tr' = []
  end.

(** The callbacks put on the queue of [p], and those handed its lock,
    oldest first. *)
Definition queued_event (p : string) (e : event) : option callback :=
  match e with
  | Queued p' c => if decide (p' = p) then Some c else None
  | _ => None
  end.

Definition granted_event (p : string) (e : event) : option callback :=
  match e with
  | Granted p' c _ => if decide (p' = p) then Some c else None
  | _ => None
  end.

Definition queued (p : string) (tr : list event) : list callback :=
  omap (queued_event p) (reverse tr).

Definition granted (p : string) (tr : list event) : list callback :=
  omap (granted_event p) (reverse tr).

(** Calls of the lock methods by master-side code, which goes on after a
    call that throws. *)
Inductive lock_call : Type :=
| GetLock (k : value) (cb : option callback)
| ReleaseLock (k lockId : value) (cb : option callback)
| HandleLockRequest (k : value).

Definition lock_step (c : lock_call) : M unit :=
  match c with
  | GetLock k cb => attempt (getLock k cb)
  | ReleaseLock k lockId cb => attempt (releaseLock k lockId cb)
  | HandleLockRequest k => attempt (handleLockRequest k)
  end.

Fixpoint lock_run (cs : list lock_call) : M unit :=
  match cs with
  | [] => ret tt
  | c :: rest => bind (lock_step c) (λ _, lock_run rest)
  end.

(** The callback that a call asks to enqueue for [p]: that of a
    callback-style [getLock] whose key has the property name [p].  Under
    the name of a member of [Object.prototype] there is no queue to push
    to, and the call throws. *)
Definition asks (p : string) (c : lock_call) : option callback :=
  match c with
  | GetLock k (Some cb) =>
      if decide (to_string k = p ∧ inherited_member p = None)
      then Some cb else None
  | _ => None
  end.

Definition requested (p : string) (cs : list lock_call) : list callback :=
  omap (asks p) cs.

(** The invariant behind mutual exclusion: what is outstanding is what is
    recorded, and recorded tokens are truthy. *)
Definition exclusion_invariant (st : state) : Prop :=
  ∀ p, exclusive p (trace st) ∧ outstanding p (trace st) = holders st p ∧
       ∀ t, locks st !! p = Some t → t ≠ "".

(** The grants of a key followed by its waiters are the callbacks enqueued
    for it, in order; every token in use was minted earlier; no queue and
    no token is recorded under the name of a member of
    [Object.prototype]. *)
Definition fifo_invariant (st : state) : Prop :=
  (∀ q, granted q (trace st) ++ waiting st q = queued q (trace st)) ∧
  (∀ q t, locks st !! q = Some t → ∃ m, (m < minted st)%nat ∧ t = uuid4 m) ∧
  (∀ q c t, Granted q c t ∈ trace st →
            ∃ m, (m < minted st)%nat ∧ t = uuid4 m) ∧
  (∀ q, inherited_member q ≠ None →
        lockRequestQueues st !! q = None ∧ locks st !! q = None).

End vocabulary.

(** ** Sample states and requests *)

Section samples.
Import Manager.
Local Existing Instance sample_host.

(** Callback [7] holds the lock of "x". *)
Definition held : state := exec (getLock (VStr "x") (Some 7%nat)) init.

(** Callback [7] holds the lock of "x", callbacks [8] and [9] wait. *)
Definition contended : list lock_call :=
  [GetLock (VStr "x") (Some 7%nat); GetLock (VStr "x") (Some 8%nat);
   GetLock (VStr "x") (Some 9%nat)].

Definition unknown_request : request :=
  Request 1 "frobnicate" (VStr "u-1") (VStr "k") VUndefined.

Definition write_request : request :=
  Request 1 "set" (VStr "u-2") (VStr "k") (VNum (num 5 I)).

(** Listener [1] is subscribed to "status". *)
Definition subscribed : state :=
  exec (listen (VStr "status") (Some (Local 1%nat))) init.

(** Workers 1 and 2 listen to "k"; worker 1 has died. *)
Definition two_workers : state :=
  with_cluster (insert 1%nat {| isConnected := false; isDead := true |})
    (exec (serve
       [(Request 1 "listen" (VStr "a") (VStr "k") VNull, 1%nat);
        (Request 2 "listen" (VStr "b") (VStr "k") VNull, 2%nat)])
       init).

End samples.

(** * Properties *)

Section properties.
Context `{Host}.
Import Manager.

Ltac proj_simpl :=
  cbn [memory locks lockRequestQueues listeners sharedLRUMemory
       minted allocated cluster trace with_memory with_locks with_queues
       with_listeners with_lru with_cluster] in *.

Ltac unfold_m :=
  cbv [bind ret throw unmodelled modify emit call when_function executor
       attempt sm_get sm_remove send] in *;
  cbn [fst snd memory locks lockRequestQueues listeners sharedLRUMemory
       minted allocated cluster trace with_memory with_locks with_queues
       with_listeners with_lru with_cluster] in *.

(** ** Sequencing *)

Lemma exec_bind {A B} (c : M A) (k : A → M B) st :
  exec (bind c k) st =
    match result c st with
    | Return a => exec (k a) (exec c st)
    | _ => exec c st
    end.
Proof. unfold bind. by destruct (c st) as [[a|e|] s]. Qed.

Lemma result_bind {A B} (c : M A) (k : A → M B) st :
  result (bind c k) st =
    match result c st with
    | Return a => result (k a) (exec c st)
    | Throw e => Throw e
    | Unmodelled => Unmodelled
    end.
Proof. unfold bind. by destruct (c st) as [[a|e|] s]. Qed.

Lemma bind_eq {A B} (c : M A) (k : A → M B) st a s :
  c st = (Return a, s) → bind c k st = k a s.
Proof. unfold bind. by intros ->. Qed.

Lemma bind_throw {A B} (c : M A) (k : A → M B) st e s :
  c st = (Throw e, s) → bind c k st = (Throw e, s).
Proof. unfold bind. by intros ->. Qed.

Lemma exec_executor body st : exec (executor body) st = exec body st.
Proof. unfold executor. by destruct (body st) as [[[v|]|e|] s]. Qed.

Lemma result_executor body st :
  result (executor body) st =
    match result body st with
    | Return (Some v) => Return (Resolved v)
    | Return None => Return Pending
    | Throw e => Return (Rejected e)
    | Unmodelled => Unmodelled
    end.
Proof. unfold executor. by destruct (body st) as [[[v|]|e|] s]. Qed.

Lemma exec_attempt {A} (c : M A) st : exec (attempt c) st = exec c st.
Proof. unfold attempt. by destruct (c st) as [[a|e|] s]. Qed.

Lemma result_attempt {A} (c : M A) st :
  result (attempt c) st =
    match result c st with
    | Unmodelled => Unmodelled
    | _ => Return tt
    end.
Proof. unfold attempt. by destruct (c st) as [[a|e|] s]. Qed.

Lemma preserves_bind {A B} P (c : M A) (k : A → M B) :
  preserves P c → (∀ a, preserves P (k a)) → preserves P (bind c k).
Proof.
  intros Hc Hk st HP. rewrite exec_bind.
  destruct (result c st); [by apply Hk, Hc|by apply Hc..].
Qed.

Lemma preserves_ret {A} P (a : A) : preserves P (ret a).
Proof. by intros st. Qed.

Lemma preserves_throw {A} P e : preserves P (@throw _ A e).
Proof. by intros st. Qed.

Lemma preserves_executor P body :
  preserves P body → preserves P (executor body).
Proof. intros Hb st HP. rewrite exec_executor. by apply Hb. Qed.

Lemma preserves_attempt {A} P (c : M A) :
  preserves P c → preserves P (attempt c).
Proof. intros Hc st HP. rewrite exec_attempt. by apply Hc. Qed.

Lemma preserves_when_function P cb body :
  (∀ c, preserves P (body c)) → preserves P (when_function cb body).
Proof. intros Hb. destruct cb as [c|]; [apply Hb|apply preserves_ret]. Qed.

(** ** Plain objects *)

Lemma property_ordinary {A} (table : gmap string (list A)) p :
  inherited_member p = None → property table p = Items <$> table !! p.
Proof. intros Hp. unfold property. rewrite Hp. by destruct (table !! p). Qed.

Lemma property_own {A} (table : gmap string (list A)) p xs :
  table !! p = Some xs → property table p = Some (Items xs).
Proof. intros Hp. unfold property. by rewrite Hp. Qed.

Lemma property_items {A} (table : gmap string (list A)) p xs :
  property table p = Some (Items xs) → table !! p = Some xs.
Proof.
  unfold property. destruct (table !! p); [by intros [= ->]|].
  by destruct (inherited_member p).
Qed.

Lemma inherited_ordinary p : inherited_member p = None → inherited p = VUndefined.
Proof. unfold inherited. by intros ->. Qed.

Lemma inherited_truthy p :
  inherited_member p ≠ None → truthy (inherited p) = true.
Proof. unfold inherited. by destruct (inherited_member p). Qed.

(** What [ensure] does to the entry of a name: under an ordinary name an
    empty array appears unless there is an array already. *)
Lemma lookup_ensure {A} (table : gmap string (list A)) p q :
  ensure p table !! q =
    if decide (q = p ∧ table !! p = None ∧ inherited_member p = None)
    then Some [] else table !! q.
Proof.
  unfold ensure, property.
  destruct (table !! p) as [xs|] eqn:Hp.
  - rewrite decide_False by (by intros (_&?&_)).
    destruct (decide (q = p)) as [->|Hq].
    + by rewrite lookup_insert_eq.
    + by rewrite lookup_insert_ne.
  - destruct (inherited_member p) as [m|]; cbn.
    + by rewrite decide_False by (by intros (_&_&?)).
    + destruct (decide (q = p)) as [->|Hq].
      * by rewrite lookup_insert_eq, decide_True.
      * rewrite lookup_insert_ne by done.
        by rewrite decide_False by (by intros (?&_&_)).
Qed.

Lemma lookup_ensure_default {A} (table : gmap string (list A)) p q :
  default [] (ensure p table !! q) = default [] (table !! q).
Proof.
  rewrite lookup_ensure. destruct (decide _) as [(->&->&_)|]; done.
Qed.

(** [push] succeeds on an array and on nothing else. *)
Lemma push_cases {A} (table : gmap string (list A)) p x :
  (∃ xs, table !! p = Some xs ∧
         push p x table = Some (<[p := xs ++ [x]]> table)) ∨
  (table !! p = None ∧ push p x table = None).
Proof.
  unfold push, property. destruct (table !! p) as [xs|]; [left; eauto|].
  right. split; [done|]. by destruct (inherited_member p).
Qed.

(** ** Notification leaves everything but subscriptions and trace alone *)

Lemma frame_refl st : frame st st.
Proof. by repeat split. Qed.

Lemma frame_trans st1 st2 st3 : frame st1 st2 → frame st2 st3 → frame st1 st3.
Proof.
  unfold frame. intros (?&?&?&?&?&?&?) (?&?&?&?&?&?&?).
  repeat split; congruence.
Qed.

Lemma removeListener_frame k l st : frame st (exec (removeListener k l) st).
Proof.
  unfold removeListener. destruct (property _ _) as [[ls|m]|]; by repeat split.
Qed.

Lemma run_listener_frame l v st : frame st (exec (run_listener l v) st).
Proof.
  unfold run_listener. unfold_m.
  destruct l as [cb|ref target id uuid key]; cbn; [by repeat split|].
  destruct (isConnected _); cbn; [by repeat split|].
  destruct (isDead _); cbn; [|by repeat split].
  apply (removeListener_frame key _
    (State (memory st) (locks st) (lockRequestQueues st) (listeners st)
       (sharedLRUMemory st) (minted st) (allocated st) (cluster st)
       (Notified (Remote ref target id uuid key) v :: trace st))).
Qed.

Lemma notify_from_frame n i k st : frame st (exec (notify_from n i k) st).
Proof.
  revert i st. induction n as [|n IH]; intros i st; [apply frame_refl|].
  cbn. eapply frame_trans; [|apply IH].
  destruct (_ !! i); [|apply frame_refl].
  unfold_m. apply (run_listener_frame _ _ st).
Qed.

Lemma notify_from_result n i k st : result (notify_from n i k) st = Return tt.
Proof.
  revert i st. induction n as [|n IH]; intros i st; [done|].
  cbn [notify_from]. apply IH.
Qed.

(** [notifyListener] returns, or throws before it has done anything. *)
Lemma notifyListener_cases k st :
  result (notifyListener k) st = Return tt ∨
  notifyListener k st = (Throw TypeError, st) ∧
  listeners st !! to_string k = None ∧
  inherited_member (to_string k) ≠ None.
Proof.
  unfold notifyListener, property.
  destruct (listeners st !! to_string k) as [ls|].
  { left. apply notify_from_result. }
  destruct (inherited_member (to_string k)) as [m|]; cbn; [|by left].
  destruct (builtin_length m) as [[|n]|]; [by left| |by left].
  right. by split_and!.
Qed.

Lemma notifyListener_ordinary k st :
  ordinary k → result (notifyListener k) st = Return tt.
Proof.
  intros Hk. by destruct (notifyListener_cases k st) as [?|(_&_&?)].
Qed.

Lemma notifyListener_frame k st : frame st (exec (notifyListener k) st).
Proof.
  unfold notifyListener.
  destruct (property _ _) as [[ls|m]|]; cbn; try apply frame_refl.
  - apply notify_from_frame.
  - destruct (builtin_length m) as [[|n]|]; apply frame_refl.
Qed.

Lemma notifyListener_memory k st :
  memory (exec (notifyListener k) st) = memory st.
Proof. apply notifyListener_frame. Qed.

(** ** The primary store *)

Lemma sm_set_stores k v st :
  to_string k ≠ "__proto__" →
  sm_set k v st = (Return tt, with_memory (insert (to_string k) v) st).
Proof.
  intros Hk. unfold sm_set. by rewrite decide_False by (by intros [? _]).
Qed.









(** ** Releasing *)

(** [handleLockRequest] either does nothing or hands the lock to the head
    of the queue; its promise is never looked at. *)
Lemma handleLockRequest_cases k st :
  exec (handleLockRequest k) st = st ∨
  ∃ a rest,
    lockRequestQueues st !! to_string k = Some (a :: rest) ∧
    truthy (holder st k) = false ∧
    exec (handleLockRequest k) st =
      State (memory st) (<[to_string k := uuid4 (minted st)]> (locks st))
        (<[to_string k := rest]> (lockRequestQueues st)) (listeners st)
        (sharedLRUMemory st) (S (minted st)) (allocated st) (cluster st)
        (Granted (to_string k) a (uuid4 (minted st)) :: trace st).
Proof.
  unfold handleLockRequest.
  destruct (truthy (holder st k)) eqn:Hh; [by left|].
  destruct (property _ _) as [[[|a rest]|m]|] eqn:Hq; [by left| |..].
  - right. exists a, rest. by apply property_items in Hq.
  - left. by destruct (builtin_length m) as [[|n]|].
  - by left.
Qed.

Lemma handleLockRequest_returns k st :
  ∃ p, result (handleLockRequest k) st = Return p.
Proof.
  unfold handleLockRequest.
  destruct (truthy (holder st k)); [by eexists|].
  destruct (property _ _) as [[[|a rest]|m]|]; try by eexists.
  destruct (builtin_length m) as [[|n]|]; by eexists.
Qed.

Lemma handleLockRequest_idle k st :
  waiting st (to_string k) = [] → exec (handleLockRequest k) st = st.
Proof.
  intros Hw. destruct (handleLockRequest_cases k st) as [?|(a&rest&Hq&_)];
    [done|].
  unfold waiting in Hw. by rewrite Hq in Hw.
Qed.

Lemma handleLockRequest_grant k st a rest :
  lockRequestQueues st !! to_string k = Some (a :: rest) →
  truthy (holder st k) = false →
  exec (handleLockRequest k) st =
    State (memory st) (<[to_string k := uuid4 (minted st)]> (locks st))
      (<[to_string k := rest]> (lockRequestQueues st)) (listeners st)
      (sharedLRUMemory st) (S (minted st)) (allocated st) (cluster st)
      (Granted (to_string k) a (uuid4 (minted st)) :: trace st).
Proof.
  intros Hq Hh. unfold handleLockRequest.
  by rewrite Hh, (property_own _ _ _ Hq).
Qed.

Lemma release_mismatch k t st :
  t ≠ holder st k → release k t st = (Return (VStr (failed t k)), st).
Proof.
  intros Hne. unfold release, strict_eq.
  by rewrite bool_decide_eq_false_2.
Qed.

Lemma release_match k st :
  release k (holder st k) st =
    (Return (VStr "OK"),
     exec (handleLockRequest k) (exec (unlock k (holder st k)) st)).
Proof.
  unfold release, strict_eq. rewrite bool_decide_eq_true_2 by done.
  unfold unlock. unfold_m.
  match goal with |- context [handleLockRequest k ?s] =>
    destruct (handleLockRequest_returns k s) as [p Hp];
    destruct (handleLockRequest k s) as [r s'] end.
  cbn [fst snd] in *. by rewrite Hp.
Qed.

Lemma release_returns k t st : ∃ v, result (release k t) st = Return v.
Proof.
  destruct (decide (t = holder st k)) as [->|Hne].
  - rewrite release_match. by eexists.
  - rewrite release_mismatch by done. by eexists.
Qed.

Lemma releaseLock_promise k t st :
  releaseLock k t None st =
    (match result (release k t) st with
     | Return v => Return (Resolved v)
     | Throw e => Return (Rejected e)
     | Unmodelled => Unmodelled
     end, exec (release k t) st).
Proof.
  unfold releaseLock. unfold_m. by destruct (release k t st) as [[v|e|] s].
Qed.

Lemma handleLockRequest_trace_suffix k st :
  ∃ es, trace (exec (handleLockRequest k) st) = es ++ trace st.
Proof.
  destruct (handleLockRequest_cases k st) as [->|(a&rest&_&_&->)];
    [by exists []|by eexists [_]].
Qed.

(** C4.  A release with a token that is not [locks[k]] reports the
    failure message, which is not the acknowledgement, and changes nothing
    in the coordinator (a callback, if given, is called with the message).
    A release with the recorded token afterwards is acknowledged with
    "OK": it deletes the holder and then hands a new token to the oldest
    waiter, if there is one. *)
Theorem release_with_wrong_token_is_refused
    (k t : value) (cb : option callback) (st : state) :
  t ≠ holder st k →
  let st' := exec (releaseLock k t cb) st in
  result (releaseLock k t cb) st = Return (Resolved (VStr (failed t k))) ∧
  failed t k ≠ "OK" ∧
  st' = exec (when_function cb (λ c, call c (VStr (failed t k)))) st ∧
  memory st' = memory st ∧ locks st' = locks st ∧
  lockRequestQueues st' = lockRequestQueues st ∧
  listeners st' = listeners st ∧
  ∀ tok, locks st !! to_string k = Some tok →
    let st'' := exec (releaseLock k (VStr tok) None) st' in
    result (releaseLock k (VStr tok) None) st'
      = Return (Resolved (VStr "OK")) ∧
    st'' = exec (handleLockRequest k)
             (exec (emit (Unlocked (to_string k) (VStr tok)))
                (with_locks (delete (to_string k)) st')) ∧
    match waiting st (to_string k) with
    | [] =>
        locks st'' = delete (to_string k) (locks st) ∧
        lockRequestQueues st'' = lockRequestQueues st
    | a :: rest =>
        ordinary k →
        locks st'' = <[to_string k := uuid4 (minted st)]> (locks st) ∧
        waiting st'' (to_string k) = rest ∧
        head (trace st'') = Some (Granted (to_string k) a (uuid4 (minted st)))
    end.
Proof.
  intros Hne st'.
  assert (Hres : releaseLock k t cb st =
    (Return (Resolved (VStr (failed t k))),
     exec (when_function cb (λ c, call c (VStr (failed t k)))) st)).
  { unfold releaseLock.
    destruct cb as [c|]; unfold_m; rewrite (release_mismatch k t st Hne).
    - cbn. by rewrite release_mismatch by exact Hne.
    - done. }
  assert (Hst' : st' =
    exec (when_function cb (λ c, call c (VStr (failed t k)))) st).
  { subst st'. by rewrite Hres. }
  assert (Hsame : memory st' = memory st ∧ locks st' = locks st ∧
                  lockRequestQueues st' = lockRequestQueues st ∧
                  listeners st' = listeners st ∧ minted st' = minted st).
  { rewrite Hst'. by destruct cb. }
  destruct Hsame as (Hm&Hl&Hq&Hls&Hmi).
  split_and!; try done.
  - by rewrite Hres.
  - intros tok Htok st''.
    assert (Hh : holder st' k = VStr tok).
    { unfold holder. by rewrite Hl, Htok. }
    pose proof (release_match k st') as Hrel. rewrite Hh in Hrel.
    assert (Hst'' : st'' = exec (handleLockRequest k)
             (exec (emit (Unlocked (to_string k) (VStr tok)))
                (with_locks (delete (to_string k)) st'))).
    { subst st''. rewrite releaseLock_promise, Hrel. done. }
    split_and!; [by rewrite releaseLock_promise, Hrel|exact Hst''|].
    clearbody st''. subst st''.
    set (s1 := exec (emit _) _).
    assert (Hs1 : locks s1 = delete (to_string k) (locks st) ∧
                  lockRequestQueues s1 = lockRequestQueues st ∧
                  minted s1 = minted st).
    { subst s1. unfold_m. by rewrite Hl, Hq, Hmi. }
    destruct Hs1 as (Hl1&Hq1&Hmi1).
    destruct (waiting st (to_string k)) as [|a rest] eqn:Hw.
    + rewrite handleLockRequest_idle; [done|].
      unfold waiting. rewrite Hq1. exact Hw.
    + intros Hk.
      assert (Hq' : lockRequestQueues s1 !! to_string k = Some (a :: rest)).
      { rewrite Hq1. unfold waiting in Hw.
        by destruct (lockRequestQueues st !! to_string k) as [[|]|];
          simplify_eq/=. }
      assert (Hfree : truthy (holder s1 k) = false).
      { unfold holder. rewrite Hl1, lookup_delete_eq.
        by rewrite inherited_ordinary. }
      rewrite (handleLockRequest_grant k s1 a rest Hq' Hfree).
      unfold waiting. proj_simpl.
      rewrite Hl1, Hmi1, insert_delete_eq, lookup_insert_eq.
      by split_and!.
Qed.

(** A release with [undefined] for a key that has no holder is not
    refused: [undefined] is what [locks[k]] reads as. *)
Lemma release_of_a_free_key k st :
  ordinary k → locks st !! to_string k = None →
  waiting st (to_string k) = [] →
  releaseLock k VUndefined None st =
    (Return (Resolved (VStr "OK")),
     exec (emit (Unlocked (to_string k) VUndefined)) st).
Proof.
  intros Hk Hl Hw.
  assert (Hh : holder st k = VUndefined).
  { unfold holder. by rewrite Hl, inherited_ordinary. }
  pose proof (release_match k st) as Hrel. rewrite Hh in Hrel.
  rewrite releaseLock_promise, Hrel. cbn [fst snd]. f_equal.
  rewrite handleLockRequest_idle.
  - unfold unlock. unfold_m. by rewrite delete_id.
  - unfold unlock. by unfold_m.
Qed.

(** Every string other than the recorded token is a wrong token, also for
    a key without holder. *)
Lemma wrong_token_is_not_the_holder k s st :
  locks st !! to_string k ≠ Some s → VStr s ≠ holder st k.
Proof.
  intros Hne. unfold holder, inherited.
  destruct (locks st !! to_string k) as [t|]; [by intros [= ->]|].
  by destruct (inherited_member _).
Qed.

(** The same holds in every state: the promise branch adds no waiter. *)
Lemma promise_getLock_enqueues_nothing k st :
  result (getLock k None) st = Return Pending ∧
  exec (getLock k None) st = exec (handleLockRequest k) (exec (ensure_queue k) st).
Proof.
  unfold getLock, ensure_queue. unfold_m.
  match goal with |- context [handleLockRequest k ?s] =>
    destruct (handleLockRequest_returns k s) as [p Hp];
    destruct (handleLockRequest k s) as [r s'] end.
  cbn [fst snd] in *. by rewrite Hp.
Qed.

(** On a new coordinator the promise branch only creates the queue. *)
Lemma promise_getLock_on_init k :
  exec (getLock k None) init = exec (ensure_queue k) init.
Proof.
  destruct (promise_getLock_enqueues_nothing k init) as [_ He]. rewrite He.
  apply handleLockRequest_idle.
  unfold waiting, ensure_queue, init. unfold_m.
  by rewrite lookup_ensure_default, lookup_empty.
Qed.

(** C1 (the code at the failing input).  On a new coordinator a
    promise-style [getLock] enqueues nobody: the queue of the key is left
    empty (or, under the name of a member of [Object.prototype], is not
    even created), no token is minted, no holder is recorded, nothing is
    called and the returned promise stays pending. *)
Theorem promise_getLock_on_new_manager (k : value) :
  let st := exec (getLock k None) init in
  result (getLock k None) init = Return Pending ∧
  lockRequestQueues st =
    match inherited_member (to_string k) with
    | Some _ => ∅
    | None => {[ to_string k := [] ]}
    end ∧
  waiting st (to_string k) = [] ∧
  locks st = ∅ ∧ minted st = 0%nat ∧ trace st = [].
Proof.
  intros st.
  destruct (promise_getLock_enqueues_nothing k init) as [Hr He].
  fold st in He.
  assert (Hq : ensure (to_string k) (∅ : gmap string (list callback)) =
               match inherited_member (to_string k) with
               | Some _ => ∅
               | None => {[ to_string k := [] ]}
               end).
  { unfold ensure, property. rewrite lookup_empty.
    destruct (inherited_member _); cbn; [done|by rewrite insert_empty]. }
  assert (Hw : waiting (exec (ensure_queue k) init) (to_string k) = []).
  { unfold waiting, ensure_queue, init. unfold_m.
    by rewrite lookup_ensure_default, lookup_empty. }
  rewrite (handleLockRequest_idle _ _ Hw) in He.
  split; [exact Hr|]. rewrite He in *. clear He. clearbody st.
  split; [exact Hq|]. by split; [exact Hw|].
Qed.

(** ** The critical-section helper *)

(** C5 (the code at the failing input).  Whatever the state, the key and
    the action: [mutex] stops at its first [await], on the promise of the
    promise-style [getLock], which never settles.  The action is not run
    and [releaseLock] is not called: the state is the one that [getLock]
    leaves, whatever the action is, and the promise of [mutex] stays
    pending.  On a new coordinator this means that nobody holds the lock
    and that nothing has been called. *)
Theorem mutex_never_runs_the_action (k : value) (f g : M promise)
    (st : state) :
  mutex k f st = (Return Pending, exec (getLock k None) st) ∧
  mutex k f st = mutex k g st ∧
  locks (exec (mutex k f) init) = ∅ ∧ trace (exec (mutex k f) init) = [].
Proof.
  assert (Hm : ∀ h s, mutex k h s = (Return Pending, exec (getLock k None) s)).
  { intros h s. unfold mutex, bind.
    destruct (promise_getLock_enqueues_nothing k s) as [Hr _].
    destruct (getLock k None s) as [r s']. cbn [fst snd] in *.
    by rewrite Hr. }
  split_and!; [apply Hm|by rewrite !Hm|rewrite Hm..]; cbn [snd];
    by rewrite promise_getLock_on_init.
Qed.

(** ** Dispatch *)

Lemma member_of_listen : member_of "listen" = Other.
Proof. done. Qed.

(** C6 (as amended).  A request whose method is not the name of any member
    of the coordinator makes [handle] throw a [TypeError]; nothing has been
    changed, sent or logged at that point, and the message loop ends there
    with the later requests unserved. *)
Theorem unknown_method_throws
    (data : request) (target : nat) (rest : list (request * nat))
    (st : state) :
  member_of (r_method data) = Absent →
  handle data target st = (Throw TypeError, st) ∧
  serve ((data, target) :: rest) st = (Throw TypeError, st).
Proof.
  intros Habs.
  assert (Hh : handle data target st = (Throw TypeError, st)).
  { unfold handle. destruct (decide (r_method data = "listen")) as [e|_].
    - rewrite e, member_of_listen in Habs. discriminate.
    - by rewrite Habs. }
  split; [done|]. cbn [serve]. unfold bind. by rewrite Hh.
Qed.

Lemma ordinary_not_proto k : ordinary k → to_string k ≠ "__proto__".
Proof. unfold ordinary. intros Hk Hp. by rewrite Hp in Hk. Qed.

(** A promise-style [set] under a truthy, ordinary key. *)
Lemma set_promise_ordinary k v st :
  truthy k = true → ordinary k →
  set k v None st =
    (Return (Some (Resolved (VStr "OK"))),
     exec (notifyListener k) (with_memory (insert (to_string k) v) st)).
Proof.
  intros Hk Ho. unfold set. rewrite Hk. unfold_m.
  rewrite sm_set_stores by by apply ordinary_not_proto. cbn [fst snd].
  pose proof (notifyListener_ordinary k
    (with_memory (insert (to_string k) v) st) Ho) as Hr.
  destruct (notifyListener k _) as [r s]. cbn [fst snd] in *. by rewrite Hr.
Qed.

Lemma remove_promise_ordinary k st :
  ordinary k →
  remove k None st =
    (Return (Resolved (VStr "OK")),
     exec (notifyListener k) (with_memory (delete (to_string k)) st)).
Proof.
  intros Ho. unfold remove. unfold_m.
  pose proof (notifyListener_ordinary k
    (with_memory (delete (to_string k)) st) Ho) as Hr.
  destruct (notifyListener k _) as [r s]. cbn [fst snd] in *. by rewrite Hr.
Qed.

Lemma reply_returns data target v st :
  reply data target v st = (Return tt, exec (reply data target v) st).
Proof. unfold reply, send. by destruct (isConnected _). Qed.

Lemma reply_memory data target v st :
  memory (exec (reply data target v) st) = memory st.
Proof. unfold reply, send. by destruct (isConnected _). Qed.

(** The second branch of [handle], for a method of the model. *)
Lemma handle_callable data target st m :
  r_method data ≠ "listen" →
  member_of (r_method data) = Callable m →
  handle data target st =
    bind (invoke m (if truthy (r_value data)
                    then [r_key data; r_value data]
                    else [r_key data]))
      (λ r, match r with
            | None => throw TypeError
            | Some (Resolved v) => reply data target v
            | Some _ => ret tt
            end) st.
Proof.
  intros Hl Hm. unfold handle. rewrite decide_False by done. by rewrite Hm.
Qed.

(** C9 (as amended).  A request whose value is falsy is dispatched with the
    key as only argument, exactly as if it carried no value.  For a write
    this means: with a truthy key that names no member of
    [Object.prototype], [undefined] is stored under the key and the worker
    gets the acknowledgement; with a falsy key nothing is stored and
    [handle] throws.  [setLRU] and [releaseLock] receive [undefined] in
    the same way, and the requests of [Worker.set] carry the value as the
    worker passed it. *)
Theorem falsy_value_is_not_passed_on
    (data : request) (target : nat) (st : state) :
  truthy (r_value data) = false →
  handle data target st
    = handle (Request (r_id data) (r_method data) (r_uuid data)
                (r_key data) VUndefined) target st ∧
  (r_method data = "set" →
     (truthy (r_key data) = false →
        handle data target st = (Throw TypeError, st)) ∧
     (truthy (r_key data) = true → ordinary (r_key data) →
        handle data target st =
          (Return tt,
           exec (reply data target (VStr "OK"))
             (exec (set (r_key data) VUndefined None) st)) ∧
        memory (exec (handle data target) st)
          = <[to_string (r_key data) := VUndefined]> (memory st))) ∧
  (r_method data = "setLRU" → truthy (r_key data) = true →
     sharedLRUMemory (exec (handle data target) st)
       = lru_set (r_key data) VUndefined (sharedLRUMemory st)) ∧
  (r_method data = "releaseLock" →
     ∃ v, result (releaseLock (r_key data) VUndefined None) st
            = Return (Resolved v) ∧
          handle data target st =
            (Return tt,
             exec (reply data target v)
               (exec (releaseLock (r_key data) VUndefined None) st))) ∧
  (∀ wid n k cb,
     Forall (λ d, r_method d = "set" ∧ r_key d = k ∧
                  r_value d = r_value data)
       (Worker.set wid n k (r_value data) cb)).
Proof.
  intros Hv. split_and!.
  - unfold handle. cbn [r_method r_value r_key]. by rewrite Hv.
  - intros Hm.
    rewrite (handle_callable data target st MSet) by by rewrite Hm.
    rewrite Hv. cbn [invoke nth]. split.
    + intros Hk. unfold set. by rewrite Hk.
    + intros Hk Ho. unfold bind.
      rewrite set_promise_ordinary by done. cbn [fst snd].
      rewrite reply_returns. split; [done|]. cbn [snd].
      by rewrite reply_memory, notifyListener_memory.
  - intros Hm Hk.
    rewrite (handle_callable data target st MSetLRU) by by rewrite Hm.
    rewrite Hv. cbn [invoke nth]. unfold setLRU. rewrite Hk. unfold_m.
    unfold reply. unfold_m. by destruct (isConnected _).
  - intros Hm.
    rewrite (handle_callable data target st MReleaseLock) by by rewrite Hm.
    rewrite Hv. cbn [invoke nth].
    destruct (release_returns (r_key data) VUndefined st) as [v Hr].
    assert (Hrl : releaseLock (r_key data) VUndefined None st =
              (Return (Resolved v), exec (release (r_key data) VUndefined) st))
      by by rewrite releaseLock_promise, Hr.
    exists v. unfold bind. rewrite !Hrl. cbn [fst snd ret].
    by rewrite reply_returns.
  - intros wid n k cb. unfold Worker.set, Worker.post.
    destruct cb; repeat constructor.
Qed.

(** ** What the model determines *)

Lemma modelled_bind {A B} (c : M A) (k : A → M B) :
  modelled c → (∀ a, modelled (k a)) → modelled (bind c k).
Proof.
  intros Hc Hk st. rewrite result_bind.
  specialize (Hc st). destruct (result c st); [apply Hk|done..].
Qed.

Lemma modelled_ret {A} (a : A) : modelled (ret a).
Proof. by intros st. Qed.

Lemma modelled_executor body : modelled body → modelled (executor body).
Proof.
  intros Hb st. rewrite result_executor. specialize (Hb st).
  by destruct (result body st) as [[v|]|e|].
Qed.

Lemma modelled_when_function cb body :
  (∀ c, modelled (body c)) → modelled (when_function cb body).
Proof. intros Hb. destruct cb as [c|]; [apply Hb|apply modelled_ret]. Qed.

Lemma modelled_notifyListener k : modelled (notifyListener k).
Proof.
  intros st. by destruct (notifyListener_cases k st) as [->|[-> _]].
Qed.

Lemma modelled_sm_set k v :
  bool_decide (to_string k = "__proto__") && is_object_or_null v = false →
  modelled (sm_set k v).
Proof.
  intros Hkv st. unfold sm_set.
  destruct (decide _) as [[Hp _]|_]; [|done].
  rewrite bool_decide_eq_true_2 in Hkv by done. cbn in Hkv. by rewrite Hkv.
Qed.

Lemma perform_returns c st :
  replaces_prototype c = false → result (perform c) st = Return tt.
Proof.
  intros Hc.
  assert (Hm : modelled (perform c)).
  { destruct c as [k v cb|k cb]; cbn [perform];
      intros s; rewrite result_attempt.
    - assert (Hset : modelled (set k v cb)).
      { unfold set. destruct (truthy k); [|apply modelled_ret].
        apply modelled_bind; [|intros _; apply modelled_bind;
                                [|intros ?; apply modelled_ret]].
        + apply modelled_when_function. intros c.
          repeat (apply modelled_bind; [|intros _]);
            [by apply modelled_sm_set|apply modelled_notifyListener|done].
        + apply modelled_executor.
          repeat (apply modelled_bind; [|intros _]);
            [by apply modelled_sm_set|apply modelled_notifyListener|done]. }
      specialize (Hset s). by destruct (result (set k v cb) s).
    - assert (Hrem : modelled (remove k cb)).
      { unfold remove. apply modelled_bind; [|intros _].
        + apply modelled_when_function. intros c.
          repeat (apply modelled_bind; [|intros _]);
            [done|apply modelled_notifyListener|done].
        + apply modelled_executor.
          repeat (apply modelled_bind; [|intros _]);
            [done|apply modelled_notifyListener|done]. }
      specialize (Hrem s). by destruct (result (remove k cb) s). }
  specialize (Hm st).
  destruct c as [k v cb|k cb]; cbn [perform] in *;
    rewrite result_attempt in *; by destruct (result _ st).
Qed.

Lemma perform_all_cons c cs st :
  replaces_prototype c = false →
  exec (perform_all (c :: cs)) st = exec (perform_all cs) (exec (perform c) st).
Proof.
  intros Hc. cbn [perform_all]. by rewrite exec_bind, perform_returns.
Qed.

(** ** Change notification *)

Lemma notified_in_cons l e tr :
  notified_in l (e :: tr) =
    notified_in l tr ++ option_list (notification l e).
Proof.
  unfold notified_in. by rewrite reverse_cons, omap_app.
Qed.

Lemma notified_in_notified l x v tr :
  notified_in l (Notified x v :: tr) =
    notified_in l tr ++ (if decide (x = l) then [v] else []).
Proof. rewrite notified_in_cons. cbn. by destruct (decide (x = l)). Qed.

Lemma notified_in_sent l w m tr :
  notified_in l (Sent w m :: tr) = notified_in l tr.
Proof. by rewrite notified_in_cons, app_nil_r. Qed.

Lemma notified_in_called l c v tr :
  notified_in l (Called c v :: tr) = notified_in l tr.
Proof. by rewrite notified_in_cons, app_nil_r. Qed.

Lemma run_listener_steady x v st :
  prunable st x = false →
  let st' := exec (run_listener x v) st in
  listeners st' = listeners st ∧
  ∀ l, notified l st' = notified l st ++ (if decide (x = l) then [v] else []).
Proof.
  intros Hx. unfold run_listener, notified, prunable, status in *.
  destruct x as [cb|ref target id uuid key]; unfold_m.
  - split; [done|]. intros l. by rewrite notified_in_notified.
  - destruct (isConnected _) eqn:Hc; unfold_m.
    + split; [done|]. intros l.
      by rewrite notified_in_sent, notified_in_notified.
    + cbn [negb andb] in Hx. rewrite Hx. unfold_m.
      split; [done|]. intros l. by rewrite notified_in_notified.
Qed.

Lemma prunable_frame st st' l :
  frame st st' → prunable st' l = prunable st l.
Proof.
  intros (_&_&_&_&_&_&Hc). destruct l as [|ref target id uuid key]; [done|].
  unfold prunable, status. by rewrite Hc.
Qed.

Lemma notify_from_steady n i k st ls :
  listeners st !! to_string k = Some ls →
  Forall (λ l, prunable st l = false) ls →
  let st' := exec (notify_from n i k) st in
  let v := stored st (to_string k) in
  listeners st' = listeners st ∧
  ∀ l, notified l st' =
       notified l st ++ replicate (occurrences l (take n (drop i ls))) v.
Proof.
  revert i st. induction n as [|n IH]; intros i st Hls Hsteady; cbn zeta.
  { split; [done|]. intros l. by rewrite take_0, app_nil_r. }
  cbn [notify_from]. rewrite Hls. change (default [] (Some ls)) with ls.
  destruct (ls !! i) as [x|] eqn:Hi.
  - assert (Hx : prunable st x = false).
    { eapply Forall_forall in Hsteady; [done|].
      by eapply list_elem_of_lookup_2. }
    unfold_m. fold (run_listener x).
    set (v := stored st (to_string k)).
    destruct (run_listener_steady x v st Hx) as [Hl Hn].
    pose proof (run_listener_frame x v st) as Hf.
    set (st1 := exec (run_listener x v) st) in *.
    destruct (IH (S i) st1) as [Hl' Hn'].
    { by rewrite Hl. }
    { eapply Forall_impl; [done|]. intros l Hp. cbn.
      by rewrite (prunable_frame st st1). }
    split; [by rewrite Hl', Hl|].
    intros l. rewrite Hn', Hn.
    destruct Hf as (Hm&_). unfold stored. rewrite Hm. fold (stored st (to_string k)).
    fold v. rewrite <- app_assoc. f_equal.
    rewrite (drop_S _ _ _ Hi). cbn [take]. unfold occurrences.
    rewrite filter_cons. destruct (decide (x = l)); [|done].
    done.
  - destruct (IH (S i) st Hls Hsteady) as [Hl' Hn'].
    split; [done|]. intros l. rewrite Hn'. do 2 f_equal.
    apply lookup_ge_None in Hi.
    by rewrite !drop_ge, !take_nil by lia.
Qed.

(** With no subscription to prune, [notifyListener] runs every subscriber
    of the key, once per registration, on the value stored, and keeps the
    subscriptions; when it throws, the key has no subscriber. *)
Lemma notifyListener_steady k st :
  steady st →
  let st' := exec (notifyListener k) st in
  let v := stored st (to_string k) in
  listeners st' = listeners st ∧
  ∀ l, notified l st' =
       notified l st
         ++ replicate (occurrences l (subscribers st (to_string k))) v.
Proof.
  intros Hsteady. unfold notifyListener, subscribers, property.
  destruct (listeners st !! to_string k) as [ls|] eqn:Hls; cbn zeta.
  - destruct (notify_from_steady (length ls) 0 k st ls Hls) as [Hl Hn].
    { apply Forall_forall. intros l Hl. apply (Hsteady (to_string k)).
      unfold subscribers. by rewrite Hls. }
    split; [done|]. intros l. rewrite Hn. cbn [default].
    by rewrite drop_0, firstn_all.
  - assert (Hst : ∀ r : outcome unit * state, r.2 = st →
              listeners r.2 = listeners st ∧
              ∀ l, notified l r.2 = notified l st ++ replicate (occurrences l []) (stored st (to_string k))).
    { intros r ->. split; [done|]. intros l. cbn. by rewrite app_nil_r. }
    apply Hst. destruct (inherited_member _) as [m|]; cbn; [|done].
    by destruct (builtin_length m) as [[|n]|].
Qed.

Lemma steady_same st st' :
  listeners st' = listeners st → cluster st' = cluster st →
  steady st → steady st'.
Proof.
  intros Hl Hc Hs p l. unfold subscribers. rewrite Hl. intros Hin.
  rewrite <- (Hs p l Hin).
  destruct l as [|ref target id uuid key]; [done|].
  unfold prunable, status. by rewrite Hc.
Qed.

(** One run of the body of [set] or [remove]: the store is updated by [f],
    then the subscribers of the key are run on the value now stored. *)
Lemma write_round (f : gmap string value → gmap string value) k st :
  steady st →
  let st' := exec (notifyListener k) (with_memory f st) in
  listeners st' = listeners st ∧ cluster st' = cluster st ∧
  memory st' = f (memory st) ∧
  ∀ l, notified l st' =
       notified l st
         ++ replicate (occurrences l (subscribers st (to_string k)))
              (stored (with_memory f st) (to_string k)).
Proof.
  intros Hs.
  assert (Hs1 : steady (with_memory f st)) by by eapply steady_same.
  destruct (notifyListener_steady k _ Hs1) as [Hl Hn].
  pose proof (notifyListener_frame k (with_memory f st)) as (Hm&_&_&_&_&_&Hc).
  cbn zeta. split_and!; try done.
Qed.

(** A callback-style write under an ordinary key is the promise-style
    write, the call of the callback, and the promise-style write again. *)
Lemma set_callback_ordinary k v c st :
  truthy k = true → ordinary k →
  set k v (Some c) st =
    (Return (Some (Resolved (VStr "OK"))),
     exec (set k v None)
       (exec (call c (VStr "OK")) (exec (set k v None) st))).
Proof.
  intros Hk Ho.
  assert (Hfirst :
    bind (sm_set k v) (λ _, bind (notifyListener k) (λ _,
      call c (VStr "OK"))) st =
    (Return tt, exec (call c (VStr "OK")) (exec (set k v None) st))).
  { rewrite set_promise_ordinary by done. unfold bind.
    rewrite sm_set_stores by by apply ordinary_not_proto. cbn [fst snd].
    pose proof (notifyListener_ordinary k
      (with_memory (insert (to_string k) v) st) Ho) as Hr.
    destruct (notifyListener k _) as [r s]. cbn [fst snd] in *.
    by rewrite Hr. }
  transitivity (set k v None
    (exec (call c (VStr "OK")) (exec (set k v None) st))).
  - unfold set at 1. rewrite Hk. cbn [when_function]. unfold bind at 1.
    rewrite Hfirst. cbn [fst snd]. unfold set. rewrite Hk. reflexivity.
  - by rewrite (set_promise_ordinary k v (exec (call _ _) _)).
Qed.

Lemma remove_promise_unfold k st :
  remove k None st =
  executor (bind (sm_remove k) (λ _, bind (notifyListener k) (λ _,
    ret (Some (VStr "OK"))))) st.
Proof. reflexivity. Qed.

Lemma trace_call c v st :
  trace (exec (call c v) st) = Called c v :: trace st.
Proof. reflexivity. Qed.

Lemma listeners_call c v st : listeners (exec (call c v) st) = listeners st.
Proof. reflexivity. Qed.

Lemma remove_callback_ordinary k c st :
  ordinary k →
  remove k (Some c) st =
    (Return (Resolved (VStr "OK")),
     exec (remove k None)
       (exec (call c (VStr "OK")) (exec (remove k None) st))).
Proof.
  intros Ho.
  assert (Hfirst :
    bind (sm_remove k) (λ _, bind (notifyListener k) (λ _,
      call c (VStr "OK"))) st =
    (Return tt, exec (call c (VStr "OK")) (exec (remove k None) st))).
  { rewrite remove_promise_ordinary by done. unfold bind.
    cbn [sm_remove modify fst snd].
    pose proof (notifyListener_ordinary k
      (with_memory (delete (to_string k)) st) Ho) as Hr.
    destruct (notifyListener k _) as [r s]. cbn [fst snd] in *.
    by rewrite Hr. }
  transitivity (remove k None
    (exec (call c (VStr "OK")) (exec (remove k None) st))).
  - unfold remove at 1. cbn [when_function]. unfold bind at 1.
    rewrite Hfirst. cbn [fst snd]. symmetry. apply remove_promise_unfold.
  - by rewrite (remove_promise_ordinary k (exec (call _ _) _)).
Qed.

Lemma stored_inserted st p v : stored (with_memory (insert p v) st) p = v.
Proof. unfold stored. cbn. by rewrite lookup_insert_eq. Qed.

Lemma stored_deleted st p : stored (with_memory (delete p) st) p = inherited p.
Proof. unfold stored. cbn. by rewrite lookup_delete_eq. Qed.

Lemma exec_set_promise k v st :
  truthy k = true → ordinary k →
  exec (set k v None) st =
    exec (notifyListener k) (with_memory (insert (to_string k) v) st).
Proof.
  intros Hk Ho. pose proof (set_promise_ordinary k v st Hk Ho) as E.
  destruct (set k v None st) as [r s]. by injection E.
Qed.

Lemma exec_set_callback k v c st :
  truthy k = true → ordinary k →
  exec (set k v (Some c)) st =
    exec (set k v None) (exec (call c (VStr "OK")) (exec (set k v None) st)).
Proof.
  intros Hk Ho. pose proof (set_callback_ordinary k v c st Hk Ho) as E.
  destruct (set k v (Some c) st) as [r s]. by injection E.
Qed.

Lemma exec_remove_promise k st :
  ordinary k →
  exec (remove k None) st =
    exec (notifyListener k) (with_memory (delete (to_string k)) st).
Proof.
  intros Ho. pose proof (remove_promise_ordinary k st Ho) as E.
  destruct (remove k None st) as [r s]. by injection E.
Qed.

Lemma exec_remove_callback k c st :
  ordinary k →
  exec (remove k (Some c)) st =
    exec (remove k None) (exec (call c (VStr "OK")) (exec (remove k None) st)).
Proof.
  intros Ho. pose proof (remove_callback_ordinary k c st Ho) as E.
  destruct (remove k (Some c) st) as [r s]. by injection E.
Qed.

(** A write on an ordinary key, with no subscription to prune. *)
Lemma set_steady k v cb st :
  steady st → ordinary k → truthy k = true →
  let st' := exec (set k v cb) st in
  listeners st' = listeners st ∧ cluster st' = cluster st ∧
  ∀ l, notified l st' =
       notified l st
         ++ replicate (runs cb * occurrences l (subscribers st (to_string k)))
              v.
Proof.
  intros Hs Ho Hk.
  destruct (write_round (insert (to_string k) v) k st Hs)
    as (Hl1&Hc1&Hm1&Hn1).
  rewrite stored_inserted in Hn1.
  destruct cb as [c|].
  - rewrite exec_set_callback by done.
    rewrite (exec_set_promise k v st) by done.
    rewrite exec_set_promise by done.
    set (st1 := exec (notifyListener k) _) in *. clearbody st1.
    set (st2 := exec (call c _) st1).
    assert (Hs2 : steady st2).
    { apply (steady_same st); [|by rewrite <- Hc1|done].
      unfold st2. by rewrite listeners_call. }
    destruct (write_round (insert (to_string k) v) k st2 Hs2)
      as (Hl3&Hc3&Hm3&Hn3).
    rewrite stored_inserted in Hn3.
    split_and!; [rewrite Hl3; unfold st2; by rewrite listeners_call|
                 by rewrite Hc3, <- Hc1|].
    intros l. rewrite Hn3. unfold notified at 1.
    unfold st2 at 1. rewrite trace_call.
    rewrite notified_in_called. fold (notified l st1). rewrite Hn1.
    unfold subscribers at 2.
    unfold st2. rewrite listeners_call, Hl1.
    fold (subscribers st (to_string k)). cbn [runs].
    rewrite <- app_assoc, <- replicate_add. do 2 f_equal. lia.
  - rewrite exec_set_promise by done.
    split_and!; try done. intros l. rewrite Hn1.
    cbn [runs]. do 2 f_equal. lia.
Qed.

Lemma remove_steady k cb st :
  steady st → ordinary k →
  let st' := exec (remove k cb) st in
  listeners st' = listeners st ∧ cluster st' = cluster st ∧
  ∀ l, notified l st' =
       notified l st
         ++ replicate (runs cb * occurrences l (subscribers st (to_string k)))
              VUndefined.
Proof.
  intros Hs Ho.
  destruct (write_round (delete (to_string k)) k st Hs)
    as (Hl1&Hc1&Hm1&Hn1).
  rewrite stored_deleted, inherited_ordinary in Hn1 by done.
  destruct cb as [c|].
  - rewrite exec_remove_callback by done.
    rewrite (exec_remove_promise k st) by done.
    rewrite exec_remove_promise by done.
    set (st1 := exec (notifyListener k) _) in *. clearbody st1.
    set (st2 := exec (call c _) st1).
    assert (Hs2 : steady st2).
    { apply (steady_same st); [|by rewrite <- Hc1|done].
      unfold st2. by rewrite listeners_call. }
    destruct (write_round (delete (to_string k)) k st2 Hs2)
      as (Hl3&Hc3&Hm3&Hn3).
    rewrite stored_deleted, inherited_ordinary in Hn3 by done.
    split_and!; [rewrite Hl3; unfold st2; by rewrite listeners_call|
                 by rewrite Hc3, <- Hc1|].
    intros l. rewrite Hn3. unfold notified at 1.
    unfold st2 at 1. rewrite trace_call.
    rewrite notified_in_called. fold (notified l st1). rewrite Hn1.
    unfold subscribers at 2.
    unfold st2. rewrite listeners_call, Hl1.
    fold (subscribers st (to_string k)). cbn [runs].
    rewrite <- app_assoc, <- replicate_add. do 2 f_equal. lia.
  - rewrite exec_remove_promise by done.
    split_and!; try done. intros l. rewrite Hn1.
    cbn [runs]. do 2 f_equal. lia.
Qed.

(** A call on an ordinary key, with no subscription to prune. *)
Lemma perform_steady c st :
  steady st → ordinary (key_of c) →
  let st' := exec (perform c) st in
  listeners st' = listeners st ∧ cluster st' = cluster st ∧
  ∀ l, notified l st' = notified l st ++ delivered st l c.
Proof.
  intros Hs Ho. destruct c as [k v cb|k cb];
    cbn [perform delivered key_of] in *; rewrite exec_attempt.
  - destruct (truthy k) eqn:Hk; [by apply set_steady|].
    unfold set. rewrite Hk. split_and!; try done.
    intros l. by rewrite app_nil_r.
  - by apply remove_steady.
Qed.

(** A call on any key leaves alone a listener that is not subscribed to
    the key, also when the call throws. *)
Lemma perform_elsewhere c l st :
  steady st →
  occurrences l (subscribers st (to_string (key_of c))) = 0%nat →
  let st' := exec (perform c) st in
  listeners st' = listeners st ∧ cluster st' = cluster st ∧
  notified l st' = notified l st.
Proof.
  intros Hs Hocc. cbn zeta.
  set (P := λ s : state,
    listeners s = listeners st ∧ cluster s = cluster st ∧
    notified l s = notified l st).
  assert (Hmem : ∀ f s, P s → P (with_memory f s)) by done.
  assert (Hset : ∀ k v, preserves P (sm_set k v)).
  { intros k v s HP. unfold sm_set.
    destruct (decide _); [by destruct (is_object_or_null v)|].
    by apply Hmem. }
  assert (Hcall : ∀ c' v, preserves P (call c' v)).
  { intros c' v s (?&?&Hn). split_and!; try done.
    unfold call, notified. unfold_m. by rewrite notified_in_called. }
  assert (Hnotify : preserves P (notifyListener (key_of c))).
  { intros s (Hl&Hc&Hn).
    assert (Hs' : steady s) by by eapply steady_same.
    destruct (notifyListener_steady (key_of c) s Hs') as [Hl' Hn'].
    pose proof (notifyListener_frame (key_of c) s) as Hf.
    split_and!.
    - by rewrite Hl'.
    - destruct Hf as (_&_&_&_&_&_&->). done.
    - rewrite Hn'. unfold subscribers. rewrite Hl.
      fold (subscribers st (to_string (key_of c))).
      rewrite Hocc. cbn. by rewrite app_nil_r. }
  assert (HP : preserves P (perform c)).
  { destruct c as [k v cb|k cb]; cbn [perform key_of] in *;
      apply preserves_attempt.
    - unfold set. destruct (truthy k); [|apply preserves_ret].
      apply preserves_bind; [|intros _; apply preserves_bind;
                               [|intros ?; apply preserves_ret]].
      + apply preserves_when_function. intros c.
        repeat (apply preserves_bind; [|intros _]); auto.
      + apply preserves_executor.
        repeat (apply preserves_bind; [|intros _]); auto.
        apply preserves_ret.
    - unfold remove. apply preserves_bind; [|intros _].
      + apply preserves_when_function. intros c.
        repeat (apply preserves_bind; [|intros _]); auto.
        intros s HPs. by apply Hmem.
      + apply preserves_executor.
        repeat (apply preserves_bind; [|intros _]); auto.
        * intros s HPs. by apply Hmem.
        * apply preserves_ret. }
  by apply HP.
Qed.

Lemma occurrences_absent l ls : l ∉ ls → occurrences l ls = 0%nat.
Proof.
  unfold occurrences. induction ls as [|x ls IH]; [done|].
  intros Hin. apply not_elem_of_cons in Hin as [Hne Hin].
  rewrite filter_cons. destruct (decide (x = l)); [congruence|by apply IH].
Qed.

Lemma occurrences_snoc l ls :
  occurrences l (ls ++ [l]) = S (occurrences l ls).
Proof.
  unfold occurrences. rewrite filter_app, length_app, filter_cons.
  rewrite decide_True by done. cbn. lia.
Qed.

(** A listener registered once under the ordinary property [p], and
    nowhere else, is called with exactly the values written under [p]. *)
Lemma perform_all_subscribed p l cs st :
  steady st → inherited_member p = None →
  occurrences l (subscribers st p) = 1%nat →
  (∀ p', p' ≠ p → occurrences l (subscribers st p') = 0%nat) →
  Forall (λ c, replaces_prototype c = false) cs →
  notified l (exec (perform_all cs) st)
    = notified l st ++ concat (map (written p) cs).
Proof.
  revert st. induction cs as [|c cs IH]; intros st Hs Hp Hone Hnone Hcs.
  { cbn. by rewrite app_nil_r. }
  apply Forall_cons in Hcs as [Hc Hcs].
  rewrite perform_all_cons by done. cbn [map concat].
  set (st1 := exec (perform c) st).
  assert (Hstep : listeners st1 = listeners st ∧ cluster st1 = cluster st ∧
                  notified l st1 = notified l st ++ written p c).
  { unfold st1. destruct (decide (to_string (key_of c) = p)) as [Hk|Hk].
    - destruct (perform_steady c st Hs) as (Hl&Hcl&Hn).
      { unfold ordinary. by rewrite Hk. }
      split_and!; [done..|]. rewrite Hn. f_equal.
      destruct c as [k v cb|k cb]; cbn [delivered written key_of] in *.
      + destruct (truthy k); [|done]. cbn [andb].
        rewrite bool_decide_eq_true_2 by done.
        rewrite Hk, Hone. f_equal. lia.
      + rewrite bool_decide_eq_true_2 by done.
        rewrite Hk, Hone. f_equal. lia.
    - destruct (perform_elsewhere c l st Hs) as (Hl&Hcl&Hn).
      { by apply Hnone. }
      split_and!; [done..|]. rewrite Hn.
      destruct c as [k v cb|k cb]; cbn [written key_of] in *;
        rewrite bool_decide_eq_false_2 by done;
        by rewrite ?andb_false_r, app_nil_r. }
  destruct Hstep as (Hl&Hcl&Hn).
  assert (Hsub : ∀ q, subscribers st1 q = subscribers st q).
  { intros q. unfold subscribers. by rewrite Hl. }
  rewrite IH; try done.
  - by rewrite Hn, <- app_assoc.
  - by eapply steady_same.
  - by rewrite Hsub.
  - intros p' Hp'. rewrite Hsub. by apply Hnone.
Qed.

Lemma steady_init : steady init.
Proof.
  intros p l. unfold subscribers, init. cbn. rewrite lookup_empty. cbn.
  by intros ?%elem_of_nil.
Qed.

Lemma unregistered_init l : unregistered l init.
Proof.
  intros p. unfold subscribers, init. cbn. rewrite lookup_empty. cbn.
  apply not_elem_of_nil.
Qed.

(** [listen] under an ordinary key appends the listener to the
    subscribers of the key. *)
Lemma listen_ordinary k l st :
  ordinary k →
  listen k (Some l) st =
    (Return tt,
     with_listeners
       (insert (to_string k) (subscribers st (to_string k) ++ [l])) st).
Proof.
  intros Ho. unfold listen. unfold_m.
  destruct (push_cases (ensure (to_string k) (listeners st)) (to_string k) l)
    as [(xs&Hxs&->)|[Hnone _]].
  - cbn [fst snd]. f_equal. unfold with_listeners. proj_simpl. f_equal.
    assert (Hx : xs = subscribers st (to_string k)).
    { unfold subscribers. rewrite <- (lookup_ensure_default _ (to_string k)).
      by rewrite Hxs. }
    rewrite Hx. apply map_eq. intros q.
    destruct (decide (q = to_string k)) as [->|Hq].
    + by rewrite !lookup_insert_eq.
    + rewrite !lookup_insert_ne by done. rewrite lookup_ensure.
      by rewrite decide_False by (by intros [? _]).
  - rewrite lookup_ensure in Hnone.
    destruct (decide _) as [|Hn]; [done|].
    exfalso. apply Hn. by split_and!.
Qed.

Lemma subscribers_listen k l st q :
  ordinary k →
  subscribers (exec (listen k (Some l)) st) q =
    if decide (q = to_string k) then subscribers st q ++ [l]
    else subscribers st q.
Proof.
  intros Ho. rewrite listen_ordinary by done. unfold subscribers. cbn.
  destruct (decide (q = to_string k)) as [->|Hq].
  - by rewrite !lookup_insert_eq.
  - by rewrite !lookup_insert_ne.
Qed.

Lemma steady_listen k l st :
  ordinary k → steady st → prunable st l = false →
  steady (exec (listen k (Some l)) st).
Proof.
  intros Ho Hs Hl q x. rewrite subscribers_listen by done.
  assert (Hp : ∀ y, prunable (exec (listen k (Some l)) st) y = prunable st y).
  { intros y. rewrite listen_ordinary by done. by destruct y. }
  rewrite Hp.
  destruct (decide _) as [->|Hq].
  - intros [Hx| ->%list_elem_of_singleton]%elem_of_app; [|done].
    by apply (Hs _ _ Hx).
  - intros Hx. by apply (Hs _ _ Hx).
Qed.

(** C7 (the code on every sequence of writes).  Let [l] be registered by
    [listen] for a key [k] that names no member of [Object.prototype], in
    a state where it is registered nowhere and where no subscription
    belongs to a dead, disconnected worker.  Over any sequence of [set]
    and [remove] calls, none of which replaces the prototype of the
    store, [l] is then called with exactly the values written under the
    property name of [k], in the order of the writes: once per
    promise-style call, but twice per call that passes a callback, with
    [undefined] for a removal, and not at all for a [set] whose key is
    falsy. *)
Theorem subscriber_receives_every_write
    (k : value) (l : listener) (cs : list store_call) (st0 : state) :
  ordinary k → steady st0 → prunable st0 l = false → unregistered l st0 →
  Forall (λ c, replaces_prototype c = false) cs →
  let st := exec (listen k (Some l)) st0 in
  result (listen k (Some l)) st0 = Return tt ∧
  notified l (exec (perform_all cs) st)
    = notified l st0 ++ concat (map (written (to_string k)) cs).
Proof.
  intros Ho Hs Hl Hun Hcs st.
  split; [by rewrite listen_ordinary|].
  assert (Hn : notified l st = notified l st0).
  { subst st. by rewrite listen_ordinary. }
  rewrite <- Hn.
  apply perform_all_subscribed; try done.
  - by apply steady_listen.
  - subst st. rewrite subscribers_listen, decide_True by done.
    by rewrite occurrences_snoc, occurrences_absent.
  - intros p' Hp'. subst st.
    rewrite subscribers_listen, decide_False by done.
    by apply occurrences_absent.
Qed.

(** C10 (as amended).  For a key that names no member of
    [Object.prototype]: a [set] with a truthy key and a callback, and a
    [remove] with a callback, run the body twice: they act as the
    promise-style call, the call of the callback with "OK", and the
    promise-style call again; a [set] with a falsy key does nothing at
    all.  When no subscription belongs to a dead, disconnected worker,
    every listener of the key is therefore called twice per registration
    with the value stored. *)
Theorem callback_style_write_runs_twice
    (k v : value) (c : callback) (st : state) :
  ordinary k →
  (truthy k = true →
   set k v (Some c) st =
     (Return (Some (Resolved (VStr "OK"))),
      exec (set k v None)
        (exec (call c (VStr "OK")) (exec (set k v None) st)))) ∧
  (truthy k = false → set k v (Some c) st = (Return None, st)) ∧
  remove k (Some c) st =
    (Return (Resolved (VStr "OK")),
     exec (remove k None)
       (exec (call c (VStr "OK")) (exec (remove k None) st))) ∧
  (steady st →
   ∀ l,
     let n := occurrences l (subscribers st (to_string k)) in
     (truthy k = true →
      notified l (exec (set k v (Some c)) st)
        = notified l st ++ replicate (2 * n) v) ∧
     notified l (exec (remove k (Some c)) st)
       = notified l st ++ replicate (2 * n) VUndefined).
Proof.
  intros Ho. split_and!.
  - intros Hk. by apply set_callback_ordinary.
  - intros Hk. unfold set. by rewrite Hk.
  - by apply remove_callback_ordinary.
  - intros Hs l n. split.
    + intros Hk.
      destruct (perform_steady (SetCall k v (Some c)) st Hs Ho) as (_&_&Hn).
      specialize (Hn l). cbn [perform delivered runs] in Hn.
      rewrite exec_attempt, Hk in Hn. exact Hn.
    + destruct (perform_steady (RemoveCall k (Some c)) st Hs Ho) as (_&_&Hn).
      specialize (Hn l). cbn [perform delivered runs] in Hn.
      by rewrite exec_attempt in Hn.
Qed.

(** ** Locks *)

Lemma push_waiter_cases k c st :
  (∃ xs, lockRequestQueues st !! to_string k = Some xs ∧
         push_waiter k c st =
           (Return tt,
            exec (emit (Queued (to_string k) c))
              (with_queues (insert (to_string k) (xs ++ [c])) st))) ∨
  (lockRequestQueues st !! to_string k = None ∧
   push_waiter k c st = (Throw TypeError, st)).
Proof.
  unfold push_waiter.
  destruct (push_cases (lockRequestQueues st) (to_string k) c)
    as [(xs&Hxs&->)|[Hnone ->]]; [left|by right].
  exists xs. split; [done|]. unfold_m. do 2 f_equal.
Qed.

(** A property of states that the building blocks of the lock methods
    preserve is preserved by every sequence of lock calls. *)
Lemma lock_step_preserves (P : state → Prop) :
  (∀ k, preserves P (ensure_queue k)) →
  (∀ k c, preserves P (push_waiter k c)) →
  (∀ k, preserves P (handleLockRequest k)) →
  (∀ k st, P st → P (exec (unlock k (holder st k)) st)) →
  (∀ c v, preserves P (call c v)) →
  ∀ c, preserves P (lock_step c).
Proof.
  intros Hensure Hpush Hhandle Hunlock Hcall.
  assert (Hrel : ∀ k t, preserves P (release k t)).
  { intros k t st HP.
    destruct (decide (t = holder st k)) as [->|Hne].
    - rewrite release_match. by apply Hhandle, Hunlock.
    - by rewrite release_mismatch. }
  intros [k cb|k t cb|k]; cbn [lock_step]; apply preserves_attempt.
  - unfold getLock. apply preserves_bind; [|intros _].
    + apply preserves_when_function. intros c.
      repeat (apply preserves_bind; [|intros ?]); auto using preserves_ret.
    + apply preserves_executor.
      repeat (apply preserves_bind; [|intros ?]); auto using preserves_ret.
  - unfold releaseLock. apply preserves_bind; [|intros _].
    + apply preserves_when_function. intros c.
      repeat (apply preserves_bind; [|intros ?]); auto.
    + apply preserves_executor.
      repeat (apply preserves_bind; [|intros ?]); auto using preserves_ret.
  - apply Hhandle.
Qed.

Lemma lock_run_preserves (P : state → Prop) cs :
  (∀ c, preserves P (lock_step c)) → preserves P (lock_run cs).
Proof.
  intros Hstep. induction cs as [|c cs IH]; [by intros st|].
  cbn [lock_run]. apply preserves_bind; [apply Hstep|by intros _].
Qed.

(** *** Mutual exclusion *)

Lemma holders_length st p : (length (holders st p) ≤ 1)%nat.
Proof. unfold holders. destruct (locks st !! p); cbn; lia. Qed.

(** A key whose [locks[k]] is falsy has no recorded holder, when recorded
    tokens are truthy. *)
Lemma falsy_holder_is_free k st :
  (∀ t, locks st !! to_string k = Some t → t ≠ "") →
  truthy (holder st k) = false →
  locks st !! to_string k = None.
Proof.
  intros Ht Hh. destruct (locks st !! to_string k) as [t|] eqn:Hl; [|done].
  specialize (Ht t eq_refl). unfold holder in Hh. rewrite Hl in Hh.
  cbn in Hh. by rewrite bool_decide_eq_true_2 in Hh.
Qed.

Lemma granting_needs_no_holder k st :
  exclusion_invariant st →
  minted (exec (handleLockRequest k) st) ≠ minted st →
  locks st !! to_string k = None.
Proof.
  intros HI Hm.
  destruct (handleLockRequest_cases k st) as [Heq|(a&rest&Hq&Hh&_)].
  { by rewrite Heq in Hm. }
  apply falsy_holder_is_free; [|done]. apply HI.
Qed.

Lemma exclusion_invariant_step :
  (∀ n, uuid4 n ≠ "") →
  ∀ c, preserves exclusion_invariant (lock_step c).
Proof.
  intros Htruthy. apply lock_step_preserves.
  - intros k st HI. exact HI.
  - intros k c st HI.
    destruct (push_waiter_cases k c st) as [(xs&_&->)|[_ ->]]; [|done].
    intros p. destruct (HI p) as (He&Ho&Ht).
    unfold_m. cbn [exclusive outstanding].
    split_and!; try done. rewrite Ho. apply holders_length.
  - intros k st HI.
    destruct (handleLockRequest_cases k st) as [->|(a&rest&Hq&Hh&->)];
      [done|].
    assert (Hfree : locks st !! to_string k = None).
    { apply falsy_holder_is_free; [|done]. apply HI. }
    intros p. destruct (HI p) as (He&Ho&Ht).
    unfold holders in *. cbn [trace locks exclusive outstanding].
    destruct (decide (to_string k = p)) as [<-|Hne].
    + rewrite lookup_insert_eq, Ho, Hfree. cbn.
      split_and!; try done.
      intros t [= <-]. apply Htruthy.
    + rewrite lookup_insert_ne by done.
      split_and!; try done.
      * rewrite Ho. apply holders_length.
      * intros c t [= ? ? ?]. done.
  - intros k st HI p. destruct (HI p) as (He&Ho&Ht).
    unfold unlock. unfold_m.
    unfold holders in *. cbn [trace locks exclusive outstanding].
    destruct (decide (to_string k = p)) as [<-|Hne].
    + rewrite lookup_delete_eq, Ho. unfold holder.
      destruct (locks st !! to_string k) as [t|]; cbn.
      * rewrite decide_False by (by intros Hn; apply Hn). cbn.
        split_and!; try done. lia.
      * split_and!; try done. lia.
    + rewrite lookup_delete_ne by done.
      split_and!; try done. rewrite Ho. apply holders_length.
  - intros c v st HI p. destruct (HI p) as (He&Ho&Ht).
    unfold_m. cbn [exclusive outstanding].
    split_and!; try done. rewrite Ho. apply holders_length.
Qed.

(** C2.  Whatever the sequence of [getLock], [releaseLock] and
    [handleLockRequest] calls on a new coordinator, with tokens that are
    non-empty strings: at every moment at most one token of a key is
    outstanding, a waiter is handed a token only when none is outstanding,
    the outstanding token is the recorded holder, and a further
    [handleLockRequest] mints a token only for a key without recorded
    holder. *)
Theorem lock_mutual_exclusion (cs : list lock_call) (p : string) :
  (∀ n, uuid4 n ≠ "") →
  let st := exec (lock_run cs) init in
  exclusive p (trace st) ∧
  outstanding p (trace st) = holders st p ∧
  (length (outstanding p (trace st)) ≤ 1)%nat ∧
  ∀ k, minted (exec (handleLockRequest k) st) ≠ minted st →
       locks st !! to_string k = None.
Proof.
  intros Htruthy st.
  assert (HI : exclusion_invariant st).
  { apply lock_run_preserves; [by apply exclusion_invariant_step|].
    intros q. unfold holders, init. cbn. by rewrite lookup_empty. }
  destruct (HI p) as (He&Ho&_). split_and!; try done.
  - rewrite Ho. apply holders_length.
  - intros k. by apply granting_needs_no_holder.
Qed.

(** *** First come, first served *)

Lemma omap_reverse_cons {A B} (f : A → option B) (e : A) (tr : list A) :
  omap f (reverse (e :: tr)) = omap f (reverse tr) ++ option_list (f e).
Proof. by rewrite reverse_cons, omap_app. Qed.

Lemma granted_cons q e tr :
  granted q (e :: tr) = granted q tr ++ option_list (granted_event q e).
Proof. apply omap_reverse_cons. Qed.

Lemma queued_cons q e tr :
  queued q (e :: tr) = queued q tr ++ option_list (queued_event q e).
Proof. apply omap_reverse_cons. Qed.

Ltac trace_step :=
  rewrite ?granted_cons, ?queued_cons;
  cbn [option_list granted_event queued_event];
  rewrite ?app_nil_r.

Lemma fifo_invariant_step c : preserves fifo_invariant (lock_step c).
Proof.
  revert c. apply lock_step_preserves.
  - intros k st (HJ&HK&HG&HO). unfold ensure_queue. unfold_m.
    split_and!; try done.
    + intros q. rewrite <- HJ. f_equal. unfold waiting.
      proj_simpl. apply lookup_ensure_default.
    + intros q Hq. proj_simpl. rewrite lookup_ensure.
      rewrite decide_False; [by apply HO|].
      intros (->&_&?). done.
  - intros k c st (HJ&HK&HG&HO).
    destruct (push_waiter_cases k c st) as [(xs&Hxs&->)|[_ ->]]; [|done].
    unfold_m. split_and!.
    + intros q. specialize (HJ q). unfold waiting in *.
      proj_simpl. trace_step.
      destruct (decide (to_string k = q)) as [<-|Hne].
      * rewrite lookup_insert_eq. rewrite Hxs in HJ.
        cbn [from_option id option_list default] in *.
        by rewrite app_assoc, HJ.
      * rewrite lookup_insert_ne by done. by rewrite !app_nil_r.
    + done.
    + intros q c' t [?|Hin]%elem_of_cons; [done|]. by eapply HG.
    + intros q Hq. proj_simpl. destruct (HO q Hq) as [Hq1 Hq2].
      split; [|done]. rewrite lookup_insert_ne; [done|].
      intros <-. by rewrite Hxs in Hq1.
  - intros k st (HJ&HK&HG&HO).
    destruct (handleLockRequest_cases k st) as [->|(a&rest&Hq&Hh&->)];
      [done|].
    split_and!.
    + intros q. specialize (HJ q). unfold waiting in *.
      proj_simpl. trace_step.
      destruct (decide (to_string k = q)) as [<-|Hne].
      * rewrite lookup_insert_eq. rewrite Hq in HJ.
        cbn [from_option id option_list default] in *.
        by rewrite <- app_assoc.
      * rewrite lookup_insert_ne by done. by rewrite !app_nil_r.
    + intros q t. proj_simpl.
      destruct (decide (to_string k = q)) as [<-|Hne].
      * rewrite lookup_insert_eq. intros [= <-]. exists (minted st).
        split; [lia|done].
      * rewrite lookup_insert_ne by done. intros Hl.
        destruct (HK q t Hl) as (m&?&?). exists m. split; [lia|done].
    + intros q c t. proj_simpl.
      intros [Heq|Hin]%elem_of_cons.
      * injection Heq as _ _ ->. exists (minted st). split; [lia|done].
      * destruct (HG q c t Hin) as (m&?&?). exists m. split; [lia|done].
    + intros q Hm. proj_simpl. destruct (HO q Hm) as [Hq1 Hq2].
      assert (Hne : to_string k ≠ q).
      { intros <-. by rewrite Hq in Hq1. }
      by rewrite !lookup_insert_ne.
  - intros k st (HJ&HK&HG&HO). unfold unlock. unfold_m.
    split_and!.
    + intros q. specialize (HJ q). unfold waiting in *.
      proj_simpl. by trace_step.
    + intros q t Hl. apply (HK q t). proj_simpl.
      destruct (decide (to_string k = q)) as [<-|Hne].
      * by rewrite lookup_delete_eq in Hl.
      * by rewrite lookup_delete_ne in Hl.
    + intros q c t [?|Hin]%elem_of_cons; [done|]. by eapply HG.
    + intros q Hm. proj_simpl. destruct (HO q Hm) as [Hq1 Hq2].
      split; [done|].
      destruct (decide (to_string k = q)) as [<-|Hne].
      * by rewrite lookup_delete_eq.
      * by rewrite lookup_delete_ne.
  - intros c v st (HJ&HK&HG&HO). unfold_m.
    split_and!.
    + intros q. specialize (HJ q). unfold waiting in *.
      proj_simpl. by trace_step.
    + done.
    + intros q c' t [?|Hin]%elem_of_cons; [done|]. by eapply HG.
    + done.
Qed.

Lemma fifo_invariant_init : fifo_invariant init.
Proof.
  split_and!.
  - intros q. unfold waiting, init. cbn. by rewrite lookup_empty.
  - intros q t. unfold init. cbn. by rewrite lookup_empty.
  - intros q c t. unfold init. cbn. by intros ?%elem_of_nil.
  - intros q _. unfold init. cbn. by rewrite !lookup_empty.
Qed.

Lemma then_handleLockRequest {B} k (rest : M B) st :
  bind (handleLockRequest k) (λ _, rest) st
    = rest (exec (handleLockRequest k) st).
Proof.
  unfold bind. destruct (handleLockRequest_returns k st) as [p Hp].
  destruct (handleLockRequest k st) as [r s]. cbn [fst snd] in *.
  by rewrite Hp.
Qed.

Lemma then_release {B} k t (rest : value → M B) st :
  ∃ v, result (release k t) st = Return v ∧
       bind (release k t) rest st = rest v (exec (release k t) st).
Proof.
  destruct (release_returns k t st) as [v Hv]. exists v. split; [done|].
  unfold bind. destruct (release k t st) as [r s]. cbn [fst snd] in *.
  by rewrite Hv.
Qed.

(** A callback-style [getLock] that finds a queue to push to. *)
Lemma getLock_callback_pushes k c st xs :
  lockRequestQueues (exec (ensure_queue k) st) !! to_string k = Some xs →
  getLock k (Some c) st =
    (Return Pending,
     exec (handleLockRequest k)
       (exec (ensure_queue k)
          (exec (handleLockRequest k)
             (exec (emit (Queued (to_string k) c))
                (with_queues (insert (to_string k) (xs ++ [c]))
                   (exec (ensure_queue k) st)))))).
Proof.
  intros Hxs. unfold getLock. cbn [when_function].
  set (s1 := exec (ensure_queue k) st) in *.
  destruct (push_waiter_cases k c s1) as [(xs'&Hxs'&Hpush)|[Hnone _]];
    [|by rewrite Hxs in Hnone].
  rewrite Hxs in Hxs'. injection Hxs' as <-.
  set (s2 := exec (emit _) _) in *.
  assert (Hbranch :
    bind (ensure_queue k) (λ _, bind (push_waiter k c) (λ _,
      bind (handleLockRequest k) (λ _, ret tt))) st
    = (Return tt, exec (handleLockRequest k) s2)).
  { rewrite (bind_eq _ _ st tt s1) by done.
    rewrite (bind_eq _ _ s1 tt s2) by done.
    by rewrite then_handleLockRequest. }
  rewrite (bind_eq _ _ st tt _ Hbranch).
  set (s3 := exec (handleLockRequest k) s2).
  assert (Hbody :
    bind (ensure_queue k) (λ _, bind (handleLockRequest k) (λ _,
      ret (@None value))) s3
    = (Return None, exec (handleLockRequest k) (exec (ensure_queue k) s3))).
  { rewrite (bind_eq _ _ s3 tt (exec (ensure_queue k) s3)) by done.
    by rewrite then_handleLockRequest. }
  unfold executor. by rewrite Hbody.
Qed.

(** A callback-style [getLock] that finds none throws, having done
    nothing. *)
Lemma getLock_callback_throws k c st :
  lockRequestQueues (exec (ensure_queue k) st) !! to_string k = None →
  getLock k (Some c) st = (Throw TypeError, st) ∧
  inherited_member (to_string k) ≠ None.
Proof.
  intros Hnone.
  assert (Hm : inherited_member (to_string k) ≠ None ∧
               lockRequestQueues st !! to_string k = None).
  { unfold ensure_queue in Hnone. unfold_m. rewrite lookup_ensure in Hnone.
    destruct (decide _) as [|Hn]; [done|]. split; [|done].
    intros Ho. apply Hn. by split_and!. }
  destruct Hm as [Hm Hq]. split; [|done].
  assert (Hs1 : ensure_queue k st = (Return tt, st)).
  { unfold ensure_queue, modify, with_queues, ensure, property. rewrite Hq.
    destruct (inherited_member _); [by destruct st|done]. }
  unfold getLock. cbn [when_function].
  assert (Hbranch :
    bind (ensure_queue k) (λ _, bind (push_waiter k c) (λ _,
      bind (handleLockRequest k) (λ _, ret tt))) st
    = (Throw TypeError, st)).
  { rewrite (bind_eq _ _ st tt st Hs1).
    destruct (push_waiter_cases k c st) as [(xs&Hxs&_)|[_ Hpush]];
      [by rewrite Hxs in Hq|].
    by rewrite (bind_throw _ _ st TypeError st Hpush). }
  by rewrite (bind_throw _ _ st TypeError st Hbranch).
Qed.

Lemma releaseLock_exec k t cb st :
  exec (releaseLock k t cb) st =
    match cb with
    | Some c =>
        match result (release k t) st with
        | Return v =>
            exec (release k t) (exec (call c v) (exec (release k t) st))
        | _ => st
        end
    | None => exec (release k t) st
    end.
Proof.
  destruct cb as [c|]; [|by rewrite releaseLock_promise].
  unfold releaseLock. cbn [when_function].
  destruct (release_returns k t st) as [v Hv]. rewrite Hv.
  assert (Hbranch :
    bind (release k t) (λ v, call c v) st
    = (Return tt, exec (call c v) (exec (release k t) st))).
  { unfold bind. destruct (release k t st) as [r s]. cbn [fst snd] in *.
    by rewrite Hv. }
  rewrite (bind_eq _ _ st tt _ Hbranch).
  rewrite exec_executor, exec_bind.
  by destruct (release_returns k t (exec (call c v) (exec (release k t) st)))
    as [v' ->].
Qed.

Lemma queued_handleLockRequest q k st :
  queued q (trace (exec (handleLockRequest k) st)) = queued q (trace st).
Proof.
  destruct (handleLockRequest_cases k st) as [->|(a&rest&Hq&Hh&->)]; [done|].
  proj_simpl. by trace_step.
Qed.

Lemma queued_release q k t st :
  queued q (trace (exec (release k t) st)) = queued q (trace st).
Proof.
  destruct (decide (t = holder st k)) as [->|Hne].
  - rewrite release_match. cbn [snd]. rewrite queued_handleLockRequest.
    unfold unlock. unfold_m. by trace_step.
  - by rewrite release_mismatch.
Qed.

Lemma queued_lock_step q c st :
  fifo_invariant st →
  queued q (trace (exec (lock_step c) st))
    = queued q (trace st) ++ option_list (asks q c).
Proof.
  intros (_&_&_&HO).
  destruct c as [k [cb|]|k t cb|k]; cbn [lock_step asks option_list];
    rewrite exec_attempt, ?app_nil_r.
  - destruct (lockRequestQueues (exec (ensure_queue k) st) !! to_string k)
      as [xs|] eqn:Hxs.
    + rewrite (getLock_callback_pushes k cb st xs Hxs). cbn [snd].
      rewrite queued_handleLockRequest.
      change (trace (exec (ensure_queue k) ?s)) with (trace s).
      rewrite queued_handleLockRequest. unfold_m. trace_step.
      f_equal. destruct (decide (to_string k = q)) as [<-|Hne].
      * rewrite decide_True; [done|]. split; [done|].
        destruct (inherited_member (to_string k)) eqn:Hm; [|done].
        unfold ensure_queue in Hxs. unfold_m.
        rewrite lookup_ensure, decide_False in Hxs
          by (intros (_&_&?); congruence).
        destruct (HO (to_string k)) as [Hq _]; [by rewrite Hm|].
        by rewrite Hq in Hxs.
      * by rewrite decide_False by (by intros [? _]).
    + destruct (getLock_callback_throws k cb st Hxs) as [-> Hm].
      cbn [snd]. rewrite decide_False; [by rewrite app_nil_r|].
      by intros [<- ?].
  - destruct (promise_getLock_enqueues_nothing k st) as [_ ->].
    by rewrite queued_handleLockRequest.
  - rewrite releaseLock_exec. destruct cb as [c|]; [|apply queued_release].
    destruct (release_returns k t st) as [v ->].
    rewrite queued_release. unfold_m. trace_step. apply queued_release.
  - apply queued_handleLockRequest.
Qed.

(** The lock methods are determined by the model. *)
Lemma lock_step_returns c st : result (lock_step c) st = Return tt.
Proof.
  assert (Hh : ∀ k, modelled (handleLockRequest k)).
  { intros k s. by destruct (handleLockRequest_returns k s) as [p ->]. }
  assert (Hr : ∀ k t, modelled (release k t)).
  { intros k t s. by destruct (release_returns k t s) as [v ->]. }
  assert (Hp : ∀ k c', modelled (push_waiter k c')).
  { intros k c' s.
    by destruct (push_waiter_cases k c' s) as [(xs&_&->)|[_ ->]]. }
  assert (Hm : modelled (lock_step c)).
  { intros s. destruct c as [k cb|k t cb|k]; cbn [lock_step];
      rewrite result_attempt.
    - assert (Hg : modelled (getLock k cb)).
      { unfold getLock. apply modelled_bind; [|intros _].
        + apply modelled_when_function. intros c.
          repeat (apply modelled_bind; [|intros ?]); done.
        + apply modelled_executor.
          repeat (apply modelled_bind; [|intros ?]); done. }
      specialize (Hg s). by destruct (result _ s).
    - assert (Hg : modelled (releaseLock k t cb)).
      { unfold releaseLock. apply modelled_bind; [|intros _].
        + apply modelled_when_function. intros c.
          repeat (apply modelled_bind; [|intros ?]); done.
        + apply modelled_executor.
          repeat (apply modelled_bind; [|intros ?]); done. }
      specialize (Hg s). by destruct (result _ s).
    - specialize (Hh k s). by destruct (result _ s). }
  specialize (Hm st).
  destruct c as [k cb|k t cb|k]; cbn [lock_step] in *;
    rewrite result_attempt in *; by destruct (result _ st).
Qed.

Lemma queued_lock_run q cs st :
  fifo_invariant st →
  queued q (trace (exec (lock_run cs) st))
    = queued q (trace st) ++ requested q cs.
Proof.
  revert st. induction cs as [|c cs IH]; intros st HF.
  { cbn. by rewrite app_nil_r. }
  assert (Hstep : exec (lock_run (c :: cs)) st
                  = exec (lock_run cs) (exec (lock_step c) st)).
  { cbn [lock_run]. by rewrite exec_bind, lock_step_returns. }
  rewrite Hstep, IH by by apply fifo_invariant_step.
  rewrite queued_lock_step, <- app_assoc by done. f_equal.
  unfold requested. change (omap (asks q) (c :: cs)) with
    (match asks q c with
     | Some x => x :: omap (asks q) cs
     | None => omap (asks q) cs
     end).
  by destruct (asks q c).
Qed.

(** C3.  In every state reached by lock calls on a new coordinator, with
    tokens that never repeat: the callbacks handed the lock of a key,
    followed by those still waiting for it, are the callbacks that asked
    for it, in the order of asking; and a release with the recorded
    holder's token clears the holder and, in the same call, hands a token
    that was never handed out before to the oldest waiter, if there is
    one, who leaves the queue. *)
Theorem release_serves_waiters_in_order
    (cs : list lock_call) (k : value) (tok : string) (cb : option callback) :
  (∀ m n, uuid4 m = uuid4 n → m = n) →
  let st := exec (lock_run cs) init in
  let p := to_string k in
  (∀ q, granted q (trace st) ++ waiting st q = requested q cs) ∧
  (locks st !! p = Some tok →
   let st' := exec (releaseLock k (VStr tok) cb) st in
   match waiting st p with
   | [] =>
       locks st' !! p = None ∧ waiting st' p = [] ∧
       granted p (trace st') = granted p (trace st)
   | a :: rest =>
       locks st' !! p = Some (uuid4 (minted st)) ∧
       waiting st' p = rest ∧
       granted p (trace st') = granted p (trace st) ++ [a] ∧
       Granted p a (uuid4 (minted st)) ∈ trace st' ∧
       ∀ q c t, Granted q c t ∈ trace st → t ≠ uuid4 (minted st)
   end).
Proof.
  intros Hinj st p.
  assert (HF : fifo_invariant st).
  { apply lock_run_preserves; [|apply fifo_invariant_init].
    intros c. apply fifo_invariant_step. }
  destruct HF as (HJ&HK&HG&HO). split.
  { intros q. rewrite HJ. subst st.
    by rewrite queued_lock_run by apply fifo_invariant_init. }
  intros Hl st'.
  assert (Hp : inherited_member p = None).
  { destruct (inherited_member p) eqn:Hm; [|done].
    destruct (HO p) as [_ Hn]; [by rewrite Hm|]. by rewrite Hn in Hl. }
  assert (Hh : holder st k = VStr tok).
  { unfold holder. fold p. by rewrite Hl. }
  pose proof (release_match k st) as Hrel. rewrite Hh in Hrel.
  set (s1 := exec (unlock k (VStr tok)) st) in *.
  assert (Hs1 : locks s1 !! p = None ∧
                lockRequestQueues s1 = lockRequestQueues st ∧
                minted s1 = minted st ∧
                trace s1 = Unlocked p (VStr tok) :: trace st).
  { subst s1. unfold unlock. unfold_m. by rewrite lookup_delete_eq. }
  destruct Hs1 as (Hl1&Hq1&Hm1&Ht1).
  assert (Hfree : truthy (holder s1 k) = false).
  { unfold holder. fold p. by rewrite Hl1, inherited_ordinary. }
  assert (Hcb : ∀ s2, release k (VStr tok) st = (Return (VStr "OK"), s2) →
            VStr tok ≠ holder s2 k →
            locks st' = locks s2 ∧
            lockRequestQueues st' = lockRequestQueues s2 ∧
            granted p (trace st') = granted p (trace s2) ∧
            ∀ e, e ∈ trace s2 → e ∈ trace st').
  { intros s2 Hs2 Hmis. subst st'. rewrite releaseLock_exec.
    destruct cb as [c|]; rewrite Hs2; cbn [fst snd]; [|done].
    rewrite release_mismatch by exact Hmis. unfold_m.
    split_and!; try done; [by trace_step|].
    intros e He. by apply elem_of_cons; right. }
  destruct (waiting st p) as [|a rest] eqn:Hw.
  - assert (Hidle : exec (handleLockRequest k) s1 = s1).
    { apply handleLockRequest_idle. unfold waiting. rewrite Hq1. exact Hw. }
    rewrite Hidle in Hrel.
    destruct (Hcb s1 Hrel) as (-> & Hq' & -> & _).
    { unfold holder. fold p. by rewrite Hl1, inherited_ordinary. }
    split_and!; [done| |].
    + unfold waiting. by rewrite Hq', Hq1.
    + rewrite Ht1. by trace_step.
  - assert (Hq : lockRequestQueues s1 !! to_string k = Some (a :: rest)).
    { rewrite Hq1. unfold waiting in Hw. fold p.
      by destruct (lockRequestQueues st !! p) as [[|]|]; simplify_eq/=. }
    rewrite (handleLockRequest_grant k s1 a rest Hq Hfree) in Hrel.
    rewrite Hm1, Ht1 in Hrel. fold p in Hrel.
    set (s2 := State _ _ _ _ _ _ _ _ _) in Hrel.
    assert (Hfresh : ∀ q c t, Granted q c t ∈ trace st →
                              t ≠ uuid4 (minted st)).
    { intros q c t Hin Heq. destruct (HG q c t Hin) as (m&Hlt&->).
      apply Hinj in Heq. lia. }
    destruct (Hcb s2 Hrel) as (-> & Hq' & -> & Hin).
    { unfold holder. fold p. subst s2. proj_simpl.
      rewrite lookup_insert_eq. intros [= ->].
      destruct (HK p _ Hl) as (m&Hlt&Heq). apply Hinj in Heq. lia. }
    subst s2. proj_simpl. split_and!.
    + by rewrite lookup_insert_eq.
    + unfold waiting. rewrite Hq'. proj_simpl. by rewrite lookup_insert_eq.
    + trace_step. by rewrite decide_True.
    + apply Hin. proj_simpl. by left.
    + exact Hfresh.
Qed.

(** A callback-style [getLock] throws exactly for the keys that name a
    member of [Object.prototype], in every state reached by lock calls on
    a new coordinator; it has then done nothing. *)
Lemma getLock_callback_throws_for_members cs k c :
  let st := exec (lock_run cs) init in
  (inherited_member (to_string k) ≠ None →
   getLock k (Some c) st = (Throw TypeError, st)) ∧
  (ordinary k → result (getLock k (Some c)) st = Return Pending).
Proof.
  intros st.
  assert (HF : fifo_invariant st).
  { apply lock_run_preserves; [|apply fifo_invariant_init].
    intros c'. apply fifo_invariant_step. }
  destruct HF as (_&_&_&HO).
  destruct (lockRequestQueues (exec (ensure_queue k) st) !! to_string k)
    as [xs|] eqn:Hxs.
  - split.
    + intros Hm. unfold ensure_queue in Hxs. unfold_m.
      rewrite lookup_ensure, decide_False in Hxs by (by intros (_&_&?)).
      destruct (HO _ Hm) as [Hq _]. by rewrite Hq in Hxs.
    + intros _. by rewrite (getLock_callback_pushes k c st xs Hxs).
  - destruct (getLock_callback_throws k c st Hxs) as [-> Hm].
    split; [done|]. intros Ho. by destruct Hm.
Qed.

End properties.

(** * The properties on the sample host *)

Section examples.
Import Manager.
Local Existing Instance sample_host.

Lemma sample_uuid4_truthy n : uuid4 n ≠ "".
Proof. done. Qed.

Lemma sample_uuid4_fresh m n : uuid4 m = uuid4 n → m = n.
Proof.
  cbn. intros Heq. apply (inj (String.app "lock-")) in Heq.
  by apply (inj pretty).
Qed.

(** *** Store *)



(** Under the names of members of [Object.prototype] the store is not a
    map: nothing is stored under [__proto__], a read after a removal
    returns the inherited function, and the promise of a write under
    [constructor] is rejected, because the listeners of that name are the
    function [Object]. *)
Lemma store_under_inherited_names :
  result (get (VStr "__proto__") None)
    (exec (set (VStr "__proto__") (VNum (num 2 I)) None) init)
  = Return (Resolved (VBuiltin Proto)) ∧
  result (get (VStr "toString") None)
    (exec (remove (VStr "toString") None) init)
  = Return (Resolved (VBuiltin ToString)) ∧
  result (set (VStr "constructor") (VNum (num 2 I)) None) init
  = Return (Some (Rejected TypeError)).
Proof. by vm_compute. Qed.

(** *** Locks *)

Lemma lock_mutual_exclusion_witness :
  (∀ n, uuid4 n ≠ "") ∧
  let st := exec (lock_run contended) init in
  exclusive "x" (trace st) ∧
  outstanding "x" (trace st) = holders st "x" ∧
  (length (outstanding "x" (trace st)) ≤ 1)%nat ∧
  ∀ k, minted (exec (handleLockRequest k) st) ≠ minted st →
       locks st !! to_string k = None.
Proof.
  split; [exact sample_uuid4_truthy|].
  exact (lock_mutual_exclusion contended "x" sample_uuid4_truthy).
Defined.

Lemma release_serves_waiters_in_order_witness :
  (∀ m n, uuid4 m = uuid4 n → m = n) ∧
  locks (exec (lock_run contended) init) !! "x" = Some "lock-0" ∧
  let st' :=
    exec (releaseLock (VStr "x") (VStr "lock-0") None)
      (exec (lock_run contended) init) in
  locks st' !! "x" = Some "lock-1" ∧ waiting st' "x" = [9%nat] ∧
  granted "x" (trace st') = [7%nat; 8%nat].
Proof.
  assert (Hheld :
    locks (exec (lock_run contended) init) !! "x" = Some "lock-0").
  { vm_compute. reflexivity. }
  split; [exact sample_uuid4_fresh|]. split; [exact Hheld|].
  destruct (release_serves_waiters_in_order contended (VStr "x") "lock-0"
              None sample_uuid4_fresh) as [_ Hrel].
  specialize (Hrel Hheld). vm_compute in Hrel.
  destruct Hrel as (Hl&Hw&Hg&_&_).
  vm_compute. split; [exact Hl|]. split; [exact Hw|exact Hg].
Defined.

(** Under the name of a member of [Object.prototype] nobody can wait: the
    callback-style [getLock] throws and grants nothing. *)
Lemma getLock_under_an_inherited_name_throws :
  getLock (VStr "toString") (Some 7%nat) init = (Throw TypeError, init).
Proof. reflexivity. Qed.

Lemma release_with_wrong_token_is_refused_witness :
  VStr "guess" ≠ holder held (VStr "x") ∧
  locks held !! "x" = Some "lock-0" ∧
  let st' := exec (releaseLock (VStr "x") (VStr "guess") None) held in
  result (releaseLock (VStr "x") (VStr "guess") None) held
    = Return (Resolved (VStr (failed (VStr "guess") (VStr "x")))) ∧
  locks st' = locks held ∧
  result (releaseLock (VStr "x") (VStr "lock-0") None) st'
    = Return (Resolved (VStr "OK")) ∧
  locks (exec (releaseLock (VStr "x") (VStr "lock-0") None) st') = ∅.
Proof.
  assert (Hne : VStr "guess" ≠ holder held (VStr "x")) by (by vm_compute).
  assert (Hheld : locks held !! to_string (VStr "x") = Some "lock-0").
  { vm_compute. reflexivity. }
  split; [exact Hne|]. split; [exact Hheld|].
  destruct (release_with_wrong_token_is_refused (VStr "x") (VStr "guess")
              None held Hne) as (Hr&_&_&_&Hl&_&_&Hok).
  destruct (Hok "lock-0" Hheld) as (Hok1&_&Hok2).
  vm_compute in Hr, Hl, Hok1, Hok2. destruct Hok2 as [Hok2 _].
  vm_compute.
  split; [exact Hr|]. split; [exact Hl|]. split; [exact Hok1|exact Hok2].
Defined.

(** A release with [undefined], as a worker's request with a falsy lock
    id is dispatched, is acknowledged for a key that nobody holds. *)
Lemma release_with_undefined_of_a_free_key :
  result (releaseLock (VStr "x") VUndefined None) init
    = Return (Resolved (VStr "OK")).
Proof. by vm_compute. Qed.

(** [mutex] on a new coordinator: the promise stays pending, and the
    action, which would store 1 under "ran", has not run. *)
Lemma mutex_on_a_new_manager :
  let r :=
    mutex (VStr "x")
      (bind (set (VStr "ran") (VNum (num 1 I)) None)
         (λ _, ret (Resolved VUndefined))) init in
  r.1 = Return Pending ∧ memory r.2 = ∅ ∧ locks r.2 = ∅ ∧ trace r.2 = [].
Proof. by vm_compute. Qed.

(** *** Dispatch *)

(** The unknown method makes [handle] throw; nothing is logged, and the
    write that follows in the inbox is never carried out. *)
Lemma unknown_method_stops_the_coordinator :
  handle unknown_request 1%nat init = (Throw TypeError, init) ∧
  trace init = [] ∧
  serve [(unknown_request, 1%nat); (write_request, 1%nat)] init
    = (Throw TypeError, init) ∧
  memory (exec (serve [(write_request, 1%nat)]) init) !! "k"
    = Some (VNum (num 5 I)).
Proof. split_and!; [reflexivity..|by vm_compute]. Qed.

(** A helper of the class is reachable by name: the worker is answered with
    [undefined]. *)
Lemma helper_method_is_served :
  handle (Request 1 "handleLockRequest" (VStr "u-3") (VStr "k") VNull)
    1%nat init
  = (Return tt,
     exec (send 1%nat (Message false 1 (VStr "u-3") VUndefined)) init).
Proof. reflexivity. Qed.

(** A worker's [getLock] reaches the promise branch: no reply is ever
    sent, also for a free key. *)
Lemma worker_getLock_gets_no_reply :
  let r := handle (Worker.handle 1 0 "getLock" (VStr "x") VNull) 1%nat init in
  r.1 = Return tt ∧ trace r.2 = [] ∧ locks r.2 = ∅.
Proof. by vm_compute. Qed.

Lemma unknown_method_throws_witness :
  member_of (r_method unknown_request) = Absent ∧
  handle unknown_request 1%nat init = (Throw TypeError, init) ∧
  serve [(unknown_request, 1%nat); (write_request, 1%nat)] init
    = (Throw TypeError, init).
Proof.
  split; [reflexivity|].
  exact (unknown_method_throws unknown_request 1%nat
           [(write_request, 1%nat)] init eq_refl).
Defined.

(** Worker 1 writes [false] under the key [0] while the store holds 5
    under the property "0": the request is dispatched as [set(0)], which
    stores nothing, and [handle] throws. *)
Lemma falsy_value_under_falsy_key_stores_nothing :
  let st := exec (set (VStr "0") (VNum (num 5 I)) None) init in
  let data := Worker.handle 1 0 "set" (VNum (num 0 I)) (VBool false) in
  result (handle data 1%nat) st = Throw TypeError ∧
  result (get (VNum (num 0 I)) None) (exec (handle data 1%nat) st)
    ≠ Return (Resolved VUndefined).
Proof. vm_compute. split; [done|discriminate]. Qed.

Lemma falsy_value_is_not_passed_on_witness :
  let data := Worker.handle 1 0 "set" (VStr "k") (VNum (num 0 I)) in
  truthy (r_value data) = false ∧ ordinary (r_key data) ∧
  memory (exec (handle data 1%nat) init) = <[ "k" := VUndefined ]> ∅.
Proof.
  intros data. split; [reflexivity|]. split; [reflexivity|].
  destruct (falsy_value_is_not_passed_on data 1%nat init eq_refl)
    as (_&Hset&_).
  destruct (Hset eq_refl) as [_ Hord].
  destruct (Hord eq_refl eq_refl) as [_ Hmem]. exact Hmem.
Defined.

(** A worker's write of a falsy value under [constructor]: the promise of
    the one-argument [set] is rejected, and no acknowledgement is sent. *)
Lemma falsy_value_under_an_inherited_name_is_not_acknowledged :
  let data := Worker.handle 1 0 "set" (VStr "constructor") (VBool false) in
  result (handle data 1%nat) init = Return tt ∧
  trace (exec (handle data 1%nat) init) = [].
Proof. by vm_compute. Qed.

(** *** Change notification *)

(** One write with a callback: the listener is called twice. *)
Lemma callback_style_write_notifies_twice :
  notified (Local 1%nat)
    (exec (set (VStr "status") (VStr "up") (Some 9%nat)) subscribed)
  = [VStr "up"; VStr "up"].
Proof. by vm_compute. Qed.

Lemma subscriber_receives_every_write_witness :
  ordinary (VStr "status") ∧ steady init ∧
  prunable init (Local 1%nat) = false ∧ unregistered (Local 1%nat) init ∧
  notified (Local 1%nat)
    (exec (perform_all [SetCall (VStr "status") (VStr "up") None;
                        SetCall (VStr "status") (VStr "down") (Some 9%nat)])
       subscribed)
  = [VStr "up"; VStr "down"; VStr "down"].
Proof.
  split; [reflexivity|]. split; [exact steady_init|]. split; [reflexivity|].
  split; [exact (unregistered_init _)|].
  assert (Hcs : Forall (λ c, replaces_prototype c = false)
            [SetCall (VStr "status") (VStr "up") None;
             SetCall (VStr "status") (VStr "down") (Some 9%nat)]).
  { by repeat constructor. }
  destruct (subscriber_receives_every_write (VStr "status") (Local 1%nat)
           [SetCall (VStr "status") (VStr "up") None;
            SetCall (VStr "status") (VStr "down") (Some 9%nat)]
           init eq_refl steady_init eq_refl (unregistered_init _) Hcs)
    as [_ Hn].
  exact Hn.
Defined.

(** A write with a callback under the empty key: nothing runs, neither the
    listener of that key nor the callback is called. *)
Lemma callback_style_write_under_falsy_key_runs_nothing :
  let st := exec (listen (VStr "") (Some (Local 1%nat))) init in
  subscribers st "" = [Local 1%nat] ∧
  set (VStr "") (VNum (num 1 I)) (Some 9%nat) st = (Return None, st) ∧
  notified (Local 1%nat)
    (exec (set (VStr "") (VNum (num 1 I)) (Some 9%nat)) st)
    = [].
Proof. split_and!; [by vm_compute|reflexivity|by vm_compute]. Qed.

Lemma callback_style_write_runs_twice_witness :
  ordinary (VStr "status") ∧ steady subscribed ∧
  truthy (VStr "status") = true ∧
  notified (Local 1%nat)
    (exec (set (VStr "status") (VStr "up") (Some 9%nat)) subscribed)
  = notified (Local 1%nat) subscribed
      ++ replicate
           (2 * occurrences (Local 1%nat) (subscribers subscribed "status"))
           (VStr "up").
Proof.
  assert (Hs : steady subscribed).
  { apply steady_listen; [reflexivity|exact steady_init|reflexivity]. }
  split; [reflexivity|]. split; [exact Hs|]. split; [reflexivity|].
  destruct (callback_style_write_runs_twice (VStr "status") (VStr "up")
              9%nat subscribed eq_refl) as (_&_&_&Hn).
  destruct (Hn Hs (Local 1%nat)) as [Hset _]. exact (Hset eq_refl).
Defined.

(** Under [constructor] the first run throws: the value is stored once,
    the callback is not called, and nobody can subscribe. *)
Lemma callback_style_write_under_an_inherited_name_throws :
  let r := set (VStr "constructor") (VNum (num 1 I)) (Some 9%nat) init in
  r.1 = Throw TypeError ∧ trace r.2 = [] ∧
  memory r.2 = {[ "constructor" := VNum (num 1 I) ]} ∧
  listen (VStr "constructor") (Some (Local 1%nat)) init
    = (Throw TypeError, init).
Proof. split_and!; [by vm_compute|by vm_compute|reflexivity..]. Qed.

(** Worker 1 has died.  On a promise-style write its listener removes
    itself while the list is being walked, and the listener of worker 2,
    which has moved up, is passed over: worker 2 is sent nothing.  With a
    callback, the second run reaches it once. *)
Lemma dead_subscriber_hides_the_next :
  let l2 := Remote 1 2 2 (VStr "b") (VStr "k") in
  subscribers two_workers "k"
    = [Remote 0 1 1 (VStr "a") (VStr "k"); l2] ∧
  notified l2 (exec (set (VStr "k") (VNum (num 3 I)) None) two_workers)
    = [] ∧
  notified l2
    (exec (set (VStr "k") (VNum (num 3 I)) (Some 9%nat)) two_workers)
    = [VNum (num 3 I)].
Proof. by vm_compute. Qed.

End examples.
